(** * healer: wire decoders and configuration model

    A shallow embedding of the Kafka client's response decoders
    ([DecodeFetchResponse], [NewMetadataResponse]) and of its configuration
    entities ([ConsumerConfig], [ProducerConfig]), with the properties the
    specification states about them.

    Conventions of the embedding:
    - a Go [[]byte] is a [ByteSlice]: the bytes below [len] and the bytes of
      the backing array between [len] and [cap];
    - a run-time panic (index or slice bounds out of range, [make] with a
      negative length) is [None] in the option monad; a Go result
      [(value, error)] is a pair whose second component is [None] for [nil];
    - fixed-width integers are [Z] values in the range of their type; the
      conversions [int16], [int32], [int64], [int8] write the two's
      complement reinterpretation out;
    - cursors ([offset]) are [nat]: every increment follows a successful read
      of as many bytes, so a cursor never exceeds the capacity of the slice
      and never wraps;
    - [int] has 64 bits, and memory is not bounded: [make] with a length
      that is not negative succeeds. *)

From Stdlib Require Import ZArith Lia.
From Stdlib.Strings Require Import Byte String Ascii.
From Stdlib Require Import OrderedTypeEx.
From stdpp Require Import base option list sorting gmap strings.

Local Open Scope Z_scope.

(** ** encoding/binary and byte slices *)

Module Binary.

Record ByteSlice : Type := mkSlice {
  data : list byte;   (* payload[0:len(payload)] *)
  spare : list byte   (* payload[len(payload):cap(payload)] *)
}.

Definition len (p : ByteSlice) : nat := length (data p).
Definition cap (p : ByteSlice) : nat := length (data p ++ spare p).

(** A slice whose capacity equals its length, e.g. [make([]byte, n)]. *)
Definition ofBytes (l : list byte) : ByteSlice := mkSlice l [].

(** [payload[off:]]: the high bound defaults to [len(payload)]. *)
Definition sliceFrom (p : ByteSlice) (off : nat) : option (list byte) :=
  if decide (off ≤ len p)%nat then Some (drop off (data p)) else None.

(** [payload[lo:hi]]: bounds are checked against [cap(payload)]. *)
Definition sliceRange (p : ByteSlice) (lo hi : nat) : option (list byte) :=
  if decide (lo ≤ hi ∧ hi ≤ cap p)%nat
  then Some (take (hi - lo) (drop lo (data p ++ spare p)))
  else None.

(** [payload[i]]. *)
Definition index (p : ByteSlice) (i : nat) : option byte := data p !! i.

Definition byteVal (b : byte) : Z := Z.of_N (Byte.to_N b).

(** Big-endian value of a byte string. *)
Definition beValue (bs : list byte) : Z :=
  fold_left (λ acc b, acc * 256 + byteVal b) bs 0.

(** [binary.BigEndian.UintW(b)] panics unless [len(b) >= W/8]. *)
Definition beUint (width : nat) (b : list byte) : option Z :=
  if decide (width ≤ length b)%nat then Some (beValue (take width b)) else None.

Definition Uint16 := beUint 2.
Definition Uint32 := beUint 4.
Definition Uint64 := beUint 8.

(** Conversion of an unsigned [bits]-bit value to the signed type of the
    same width. *)
Definition toSigned (bits : Z) (u : Z) : Z :=
  if decide (u < 2 ^ (bits - 1)) then u else u - 2 ^ bits.

Definition int8 := toSigned 8.
Definition int16 := toSigned 16.
Definition int32 := toSigned 32.
Definition int64 := toSigned 64.

(** The values of the signed and unsigned types of [bits] bits. *)
Definition inSigned (bits : Z) (z : Z) : Prop :=
  - 2 ^ (bits - 1) ≤ z < 2 ^ (bits - 1).
Definition inUnsigned (bits : Z) (z : Z) : Prop := 0 ≤ z < 2 ^ bits.

(** [binary.BigEndian.UintW(payload[off:])]. *)
Definition readUint16 (p : ByteSlice) (off : nat) : option Z :=
  b ← sliceFrom p off; Uint16 b.
Definition readUint32 (p : ByteSlice) (off : nat) : option Z :=
  b ← sliceFrom p off; Uint32 b.
Definition readUint64 (p : ByteSlice) (off : nat) : option Z :=
  b ← sliceFrom p off; Uint64 b.

(** [string(b)]: a Go string is the byte sequence itself. *)
Definition goString (b : list byte) : string := string_of_list_byte b.

End Binary.

(** ** Package gokafka: fetch_response.go *)

Module FetchResponse.
Import Binary.

(** Go's [error] interface as far as this package uses it. *)
Inductive error : Type := errorString (msg : string).

(** Modelled from the spec: the [Message] record (one log record), whose
    declaration is not part of the sources at hand.  [Key] and [Value] are
    [None] for a nil slice and [Some l] for a slice holding [l]. *)
Record Message : Type := mkMessage {
  Offset : Z;
  MessageSize : Z;
  Crc : Z;
  MagicByte : Z;
  Attributes : Z;
  Key : option (list byte);
  Value : option (list byte)
}.

(** The zero value of [Message], as [make([]Message, n)] fills it in. *)
Definition zeroMessage : Message := mkMessage 0 0 0 0 0 None None.

Record TopicData : Type := mkTopicData {
  Partition : Z;
  ErrorCode : Z;
  HighwaterMarkOffset : Z;
  MessageSetSize : Z;
  MessageSet : list Message   (* Go type MessageSet, []Message *)
}.

Record TopicEntry : Type := mkTopicEntry {
  TopicName : string;
  TopicDatas : list TopicData
}.

Definition FetchResponse := list TopicEntry.

(** Lines 81-89 and 91-99: a length field followed by that many bytes.
    [-1] leaves the field nil; otherwise [make([]byte, n)] (which panics on
    a negative [n]) receives [payload[offset:offset+n]]. *)
Definition decodeBytes (payload : ByteSlice) (offset : nat)
  : option (option (list byte) * nat) :=
  u ← readUint32 payload offset;
  let n := int32 u in
  let offset := (offset + 4)%nat in
  if decide (n = -1) then Some (None, offset)
  else if decide (n < 0) then None
  else
    src ← sliceRange payload offset (offset + Z.to_nat n);
    Some (Some src, (offset + Z.to_nat n)%nat).

(** Lines 71-99: one iteration of the message loop, up to the test of the
    early stop. *)
Definition decodeMessage (payload : ByteSlice) (offset : nat)
  : option (Message * nat) :=
  o ← readUint64 payload offset;
  let offset := (offset + 8)%nat in
  sz ← readUint32 payload offset;
  let offset := (offset + 4)%nat in
  crc ← readUint32 payload offset;
  let offset := (offset + 4)%nat in
  magic ← index payload offset;
  let offset := (offset + 1)%nat in
  attrs ← index payload offset;
  let offset := (offset + 1)%nat in
  '(key, offset) ← decodeBytes payload offset;
  '(value, offset) ← decodeBytes payload offset;
  Some (mkMessage (int64 o) (int32 sz) crc (int8 (byteVal magic))
          (int8 (byteVal attrs)) key value, offset).

(** Lines 70-103: the message loop over [k], with [n] iterations left.
    Returns the messages it stored, in order, and the cursor. *)
Fixpoint decodeMessages (payload : ByteSlice) (n : nat) (offset : nat)
  : option (list Message * nat) :=
  match n with
  | O => Some ([], offset)
  | S n' =>
      '(m, offset) ← decodeMessage payload offset;
      if decide (offset = len payload) then Some ([m], offset)
      else
        '(ms, offset) ← decodeMessages payload n' offset;
        Some (m :: ms, offset)
  end.

(** [Records payload offset ms offset']: the message records [ms] lie one
    after the other from [offset] to [offset'], and none of them but the
    last ends where the buffer ends. *)
Inductive Records (payload : ByteSlice) : nat → list Message → nat → Prop :=
| Records_nil offset : Records payload offset [] offset
| Records_cons offset m offset1 ms offset' :
    decodeMessage payload offset = Some (m, offset1) →
    (ms ≠ [] → offset1 ≠ len payload) →
    Records payload offset1 ms offset' →
    Records payload offset (m :: ms) offset'.

(** The slice made at line 69 after the loop: the stored messages, then
    the entries the loop never reached, still zero. *)
Definition fillMessageSet (size : nat) (stored : list Message) : list Message :=
  stored ++ replicate (size - length stored) zeroMessage.

(** Lines 61-103: one partition. *)
Definition decodeTopicData (payload : ByteSlice) (offset : nat)
  : option (TopicData * nat) :=
  part ← readUint32 payload offset;
  let offset := (offset + 4)%nat in
  ec ← readUint16 payload offset;
  let offset := (offset + 2)%nat in
  hw ← readUint64 payload offset;
  let offset := (offset + 8)%nat in
  sz ← readUint32 payload offset;
  let offset := (offset + 4)%nat in
  let size := int32 sz in
  if decide (size < 0) then None
  else
    '(stored, offset) ← decodeMessages payload (Z.to_nat size) offset;
    Some (mkTopicData (int32 part) (int16 ec) (int64 hw) size
            (fillMessageSet (Z.to_nat size) stored), offset).

(** Lines 60-104: the loop over [j]. *)
Fixpoint decodeTopicDatas (payload : ByteSlice) (n : nat) (offset : nat)
  : option (list TopicData * nat) :=
  match n with
  | O => Some ([], offset)
  | S n' =>
      '(d, offset) ← decodeTopicData payload offset;
      '(ds, offset) ← decodeTopicDatas payload n' offset;
      Some (d :: ds, offset)
  end.

(** Lines 52-104: one topic. *)
Definition decodeTopic (payload : ByteSlice) (offset : nat)
  : option (TopicEntry * nat) :=
  topicNameLength ← readUint16 payload offset;
  let offset := (offset + 2)%nat in
  name ← sliceRange payload offset (offset + Z.to_nat topicNameLength);
  let offset := (offset + Z.to_nat topicNameLength)%nat in
  topicDataCount ← readUint32 payload offset;
  let offset := (offset + 4)%nat in
  '(ds, offset) ← decodeTopicDatas payload (Z.to_nat topicDataCount) offset;
  Some (mkTopicEntry (goString name) ds, offset).

(** Lines 51-105: the loop over [i]. *)
Fixpoint decodeTopics (payload : ByteSlice) (n : nat) (offset : nat)
  : option (list TopicEntry * nat) :=
  match n with
  | O => Some ([], offset)
  | S n' =>
      '(t, offset) ← decodeTopic payload offset;
      '(ts, offset) ← decodeTopics payload n' offset;
      Some (t :: ts, offset)
  end.

(** The bytes a key or value takes after its length field, and the bytes
    of a whole message record: 26 for the fixed fields and the two length
    fields (lines 71-99). *)
Definition fieldSize (field : option (list byte)) : nat :=
  match field with
  | None => 0
  | Some bs => length bs
  end.

Definition recordSize (m : Message) : nat :=
  26 + fieldSize (Key m) + fieldSize (Value m).

(** The least a topic takes: two length bytes, its name, four bytes of
    count, and for each partition the eighteen bytes before its records
    (lines 52-68). *)
Definition topicFloor (t : TopicEntry) : nat :=
  6 + String.length (TopicName t) + 18 * length (TopicDatas t).

(** The fields of a message within the ranges of their types. *)
Definition messageInRange (m : Message) : Prop :=
  inSigned 64 (Offset m) ∧ inSigned 32 (MessageSize m) ∧
  inUnsigned 32 (Crc m) ∧ inSigned 8 (MagicByte m) ∧ inSigned 8 (Attributes m).

Definition DecodeFetchResponse (payload : ByteSlice)
  : option (FetchResponse * option error) :=
  let offset := 0%nat in
  topicDataCount ← readUint32 payload offset;
  let offset := (offset + 4)%nat in
  '(fetchResponse, _) ← decodeTopics payload (Z.to_nat topicDataCount) offset;
  Some (fetchResponse, None).

End FetchResponse.

(** ** Package sort

    [sort.Slice] belongs to Go's library.  Its documentation fixes what the
    decoder may rely on: the slice is rearranged (never changed otherwise),
    the result is in ascending order as determined by [less], the order of
    equal elements is unspecified, and [less] has to describe a transitive
    ordering.  [SliceSorter] is that contract; [mergeSorter] is one
    implementation of it. *)

Module Sort.

(** The requirement on [less]: irreflexive, transitive, and with a
    transitive "not less". *)
Record TransitiveOrdering {A : Type} (less : A → A → bool) : Prop := {
  less_irrefl : ∀ a, less a a = false;
  less_trans : ∀ a b c, less a b = true → less b c = true → less a c = true;
  notless_trans :
    ∀ a b c, less a b = false → less b c = false → less a c = false
}.

(** [a] may stand before [b]: [b] is not less than [a]. *)
Definition inOrder {A : Type} (less : A → A → bool) : relation A :=
  λ a b, less b a = false.

#[global] Instance inOrder_dec {A} (less : A → A → bool) :
  RelDecision (inOrder less).
Proof. intros a b. unfold inOrder. apply _. Defined.

Class SliceSorter : Type := {
  sort_Slice : ∀ {A : Type}, (A → A → bool) → list A → list A;
  sort_Slice_Permutation :
    ∀ (A : Type) (less : A → A → bool) (x : list A),
      sort_Slice less x ≡ₚ x;
  sort_Slice_Sorted :
    ∀ (A : Type) (less : A → A → bool) (x : list A),
      TransitiveOrdering less → Sorted (inOrder less) (sort_Slice less x)
}.

Definition mergeSort {A : Type} (less : A → A → bool) (x : list A) : list A :=
  merge_sort (inOrder less) x.

End Sort.

(** ** Package healer: the topology (metadata) response *)

Module Metadata.
Import Binary Sort.

(** Modelled from the spec: the error-code registry, whose source is not
    at hand.  [Error] stands for the registry's entries (compared by
    identity in the decoder), [getErrorFromErrorCode] is the lookup by
    protocol code, total as the specification describes it, and
    [AllError i] is the table entry at index [i]; the entry at index 9 is
    the one the specification calls "leader not available". *)
Class ErrorRegistry : Type := {
  Error : Type;
  Error_eq_dec :: EqDecision Error;
  getErrorFromErrorCode : Z → Error;
  AllError : nat → Error
}.

Record BrokerInfo : Type := mkBrokerInfo {
  NodeId : Z;
  Host : string;
  Port : Z
}.

Record PartitionMetadataInfo : Type := mkPartitionMetadataInfo {
  PartitionErrorCode : Z;
  PartitionID : Z;
  Leader : Z;
  Replicas : list Z;
  Isr : list Z
}.

Record TopicMetadata : Type := mkTopicMetadata {
  TopicErrorCode : Z;
  TopicName : string;
  PartitionMetadatas : list PartitionMetadataInfo
}.

Record MetadataResponse : Type := mkMetadataResponse {
  CorrelationID : Z;
  Brokers : list BrokerInfo;
  TopicMetadatas : list TopicMetadata
}.

(** The comparison functions handed to [sort.Slice] (lines 151-153 and
    155-157); [<] on Go strings is the bytewise lexicographic order. *)
Definition lessTopicName (a b : TopicMetadata) : bool :=
  String.ltb (TopicName a) (TopicName b).
Definition lessPartitionID (a b : PartitionMetadataInfo) : bool :=
  PartitionID a <? PartitionID b.

Section Decoder.
Context `{ErrorRegistry} `{SliceSorter}.

(** The errors [NewMetadataResponse] can return: the formatted one of
    line 71, with its two arguments, or an entry of the registry. *)
Inductive error : Type :=
| lengthDidNotMatch (declared actual : Z)
| registryError (e : Error).

(** Lines 102-107 and 121-126: the running error [err] after a topic- or
    partition-level code has been read. *)
Definition trackError (err : option error) (code : Z) : option error :=
  match err with
  | None =>
      if decide (code ≠ 0) then
        let e := getErrorFromErrorCode code in
        if decide (e = AllError 9) then None else Some (registryError e)
      else None
  | Some _ => err
  end.

(** Lines 83-91: one broker. *)
Definition decodeBroker (payload : ByteSlice) (offset : nat)
  : option (BrokerInfo * nat) :=
  nodeId ← readUint32 payload offset;
  let offset := (offset + 4)%nat in
  HostLength ← readUint16 payload offset;
  let offset := (offset + 2)%nat in
  host ← sliceRange payload offset (offset + Z.to_nat HostLength);
  let offset := (offset + Z.to_nat HostLength)%nat in
  port ← readUint32 payload offset;
  let offset := (offset + 4)%nat in
  Some (mkBrokerInfo (int32 nodeId) (goString host) (int32 port), offset).

(** Lines 82-92: the loop over the brokers. *)
Fixpoint decodeBrokers (payload : ByteSlice) (n : nat) (offset : nat)
  : option (list BrokerInfo * nat) :=
  match n with
  | O => Some ([], offset)
  | S n' =>
      '(b, offset) ← decodeBroker payload offset;
      '(bs, offset) ← decodeBrokers payload n' offset;
      Some (b :: bs, offset)
  end.

(** Lines 135-138 and 142-145: [n] node ids. *)
Fixpoint decodeInt32s (payload : ByteSlice) (n : nat) (offset : nat)
  : option (list Z * nat) :=
  match n with
  | O => Some ([], offset)
  | S n' =>
      v ← readUint32 payload offset;
      '(vs, offset) ← decodeInt32s payload n' (offset + 4)%nat;
      Some (int32 v :: vs, offset)
  end.

(** Lines 118-145: one partition; [err] is threaded through. *)
Definition decodePartition (payload : ByteSlice) (offset : nat)
    (err : option error)
  : option (PartitionMetadataInfo * nat * option error) :=
  ec ← readUint16 payload offset;
  let partitionErrorCode := int16 ec in
  let err := trackError err partitionErrorCode in
  let offset := (offset + 2)%nat in
  pid ← readUint32 payload offset;
  let offset := (offset + 4)%nat in
  leader ← readUint32 payload offset;
  let offset := (offset + 4)%nat in
  replicasCount ← readUint32 payload offset;
  let offset := (offset + 4)%nat in
  '(replicas, offset) ← decodeInt32s payload (Z.to_nat replicasCount) offset;
  isrCount ← readUint32 payload offset;
  let offset := (offset + 4)%nat in
  '(isr, offset) ← decodeInt32s payload (Z.to_nat isrCount) offset;
  Some (mkPartitionMetadataInfo partitionErrorCode (int32 pid)
          (int32 leader) replicas isr, offset, err).

(** Lines 117-146: the loop over the partitions of a topic. *)
Fixpoint decodePartitions (payload : ByteSlice) (n : nat) (offset : nat)
    (err : option error)
  : option (list PartitionMetadataInfo * nat * option error) :=
  match n with
  | O => Some ([], offset, err)
  | S n' =>
      '(p, offset, err) ← decodePartition payload offset err;
      '(ps, offset, err) ← decodePartitions payload n' offset err;
      Some (p :: ps, offset, err)
  end.

(** Lines 100-146: one topic. *)
Definition decodeTopicMetadata (payload : ByteSlice) (offset : nat)
    (err : option error)
  : option (TopicMetadata * nat * option error) :=
  ec ← readUint16 payload offset;
  let topicErrorCode := int16 ec in
  let err := trackError err topicErrorCode in
  let offset := (offset + 2)%nat in
  topicNameLength ← readUint16 payload offset;
  let offset := (offset + 2)%nat in
  name ← sliceRange payload offset (offset + Z.to_nat topicNameLength);
  let offset := (offset + Z.to_nat topicNameLength)%nat in
  partitionMetadataInfoCount ← readUint32 payload offset;
  let offset := (offset + 4)%nat in
  '(ps, offset, err) ←
    decodePartitions payload (Z.to_nat partitionMetadataInfoCount) offset err;
  Some (mkTopicMetadata topicErrorCode (goString name) ps, offset, err).

(** Lines 99-147: the loop over the topics. *)
Fixpoint decodeTopicMetadatas (payload : ByteSlice) (n : nat) (offset : nat)
    (err : option error)
  : option (list TopicMetadata * nat * option error) :=
  match n with
  | O => Some ([], offset, err)
  | S n' =>
      '(t, offset, err) ← decodeTopicMetadata payload offset err;
      '(ts, offset, err) ← decodeTopicMetadatas payload n' offset err;
      Some (t :: ts, offset, err)
  end.

(** Lines 154-158: the partitions of one topic, sorted in place. *)
Definition sortPartitions (t : TopicMetadata) : TopicMetadata :=
  mkTopicMetadata (TopicErrorCode t) (TopicName t)
    (sort_Slice lessPartitionID (PartitionMetadatas t)).

(** Lines 150-158. *)
Definition sortTopicMetadatas (ts : list TopicMetadata) : list TopicMetadata :=
  sortPartitions <$> sort_Slice lessTopicName ts.

(** [int] has 64 bits: [int(uint32) + 4] does not wrap. *)
Definition NewMetadataResponse (payload : ByteSlice)
  : option (option MetadataResponse * option error) :=
  let err : option error := None in
  let offset := 0%nat in
  responseLength ← readUint32 payload offset;
  if decide (responseLength + 4 ≠ Z.of_nat (len payload)) then
    Some (None,
          Some (lengthDidNotMatch (responseLength + 4) (Z.of_nat (len payload))))
  else
    let offset := (offset + 4)%nat in
    correlationID ← readUint32 payload offset;
    let offset := (offset + 4)%nat in
    brokersCount ← readUint32 payload offset;
    let offset := (offset + 4)%nat in
    '(brokers, offset) ← decodeBrokers payload (Z.to_nat brokersCount) offset;
    topicMetadatasCount ← readUint32 payload offset;
    let offset := (offset + 4)%nat in
    '(topics, offset, err) ←
      decodeTopicMetadatas payload (Z.to_nat topicMetadatasCount) offset err;
    Some (Some (mkMetadataResponse correlationID brokers
                  (sortTopicMetadatas topics)), err).

(** The topic- and partition-level codes of decoded topics, in decode
    order: each topic's code, then those of its partitions. *)
Definition errorCodes (ts : list TopicMetadata) : list Z :=
  ts ≫= λ t, TopicErrorCode t :: (PartitionErrorCode <$> PartitionMetadatas t).

(** The aggregation in the specification's words: the first non-zero
    code decides, and it is suppressed when it is the benign one. *)
Definition firstNonZeroError (codes : list Z) : option error :=
  match filter (λ c, c ≠ 0) codes with
  | [] => None
  | c :: _ =>
      if decide (getErrorFromErrorCode c = AllError 9) then None
      else Some (registryError (getErrorFromErrorCode c))
  end.

(** A code is reported when it is neither zero nor benign. *)
Definition reported (c : Z) : Prop :=
  c ≠ 0 ∧ getErrorFromErrorCode c ≠ AllError 9.

#[global] Instance reported_dec c : Decision (reported c).
Proof. unfold reported. apply _. Defined.

(** The error of the first reported code, if any. *)
Definition firstReportedError (codes : list Z) : option error :=
  match filter reported codes with
  | [] => None
  | c :: _ => Some (registryError (getErrorFromErrorCode c))
  end.

End Decoder.

(** The bytes the records take on the wire, as the decoder walks them
    (lines 84-91, 101-115 and 119-145), and those of a whole response with
    its length, correlation id and two counts. *)
Definition brokerSize (b : BrokerInfo) : nat := 10 + String.length (Host b).

Definition partitionSize (p : PartitionMetadataInfo) : nat :=
  18 + 4 * (length (Replicas p) + length (Isr p)).

Definition topicSize (t : TopicMetadata) : nat :=
  8 + String.length (TopicName t) + sum_list_with partitionSize (PartitionMetadatas t).

Definition responseSize (r : MetadataResponse) : nat :=
  16 + sum_list_with brokerSize (Brokers r) + sum_list_with topicSize (TopicMetadatas r).

(** The same topic up to the order of its partitions. *)
Definition sameTopic (a b : TopicMetadata) : Prop :=
  TopicErrorCode a = TopicErrorCode b ∧
  TopicName a = TopicName b ∧
  PartitionMetadatas a ≡ₚ PartitionMetadatas b.

(** A registry in the shape the specification describes, for the test
    vectors: an entry is identified by its index in the table, a code
    selects the entry at its own index, and the codes below zero select
    entry 0, the unknown error. *)
Definition tableRegistry : ErrorRegistry :=
  {| Error := nat;
     getErrorFromErrorCode := Z.to_nat;
     AllError := λ i, i |}.

End Metadata.

(** ** Package healer: configuration *)

Module Config.

(** [int] has 64 bits; additions on it wrap around. *)
Definition wrapInt (z : Z) : Z := (z + 2 ^ 63) mod 2 ^ 64 - 2 ^ 63.

Definition inInt (bits : Z) (z : Z) : Prop :=
  - 2 ^ (bits - 1) ≤ z < 2 ^ (bits - 1).

(** The API identifiers the consumer configuration indexes its timeout
    vector with.  Their declarations are not part of the sources at hand,
    so they are parameters of the model. *)
Class APIKeys : Type := {
  API_JoinGroup : nat;
  API_OffsetCommitRequest : nat;
  API_FetchRequest : nat
}.

(** The identifiers of the Kafka protocol: fetch 1, offset commit 8, join
    group 11. *)
Definition kafkaAPIKeys : APIKeys :=
  {| API_JoinGroup := 11; API_OffsetCommitRequest := 8; API_FetchRequest := 1 |}.

(** The package's error values; [UnmarshalTypeError] stands for the error
    [json.Unmarshal] reports for the named key. *)
Inductive error : Type :=
| brokerAddressNotSet
| emptyGroupID
| invallidOffsetsStorageConfig
| messageMaxCountError
| flushIntervalMSError
| unknownCompressionType
| bootstrapServersNotSet
| UnmarshalTypeError (key : string).

#[global] Instance error_eq_dec : EqDecision error.
Proof. solve_decision. Defined.

(** [TimeoutMSForEachAPI] is [None] for a nil slice. *)
Record ConsumerConfig : Type := mkConsumerConfig {
  BootstrapServers : string;
  ClientID : string;
  GroupID : string;
  RetryBackOffMS : Z;
  MetadataMaxAgeMS : Z;
  SessionTimeoutMS : Z;
  FetchMaxWaitMS : Z;
  FetchMaxBytes : Z;
  FetchMinBytes : Z;
  FromBeginning : bool;
  AutoCommit : bool;
  CommitAfterFetch : bool;
  AutoCommitIntervalMS : Z;
  OffsetsStorage : Z;
  ConnectTimeoutMS : Z;
  TimeoutMS : Z;
  TimeoutMSForEachAPI : option (list Z)
}.

Definition setTimeoutMSForEachAPI (c : ConsumerConfig) (v : option (list Z))
  : ConsumerConfig :=
  mkConsumerConfig (BootstrapServers c) (ClientID c) (GroupID c)
    (RetryBackOffMS c) (MetadataMaxAgeMS c) (SessionTimeoutMS c)
    (FetchMaxWaitMS c) (FetchMaxBytes c) (FetchMinBytes c) (FromBeginning c)
    (AutoCommit c) (CommitAfterFetch c) (AutoCommitIntervalMS c)
    (OffsetsStorage c) (ConnectTimeoutMS c) (TimeoutMS c) v.

(** [x[i] = v] on a slice: an index out of range panics. *)
Definition assignIndex (x : list Z) (i : nat) (v : Z) : option (list Z) :=
  if decide (i < length x)%nat then Some (<[i := v]> x) else None.

(** The values a configuration mapping holds, as far as the model goes:
    nil, booleans, integers, strings (valid UTF-8) and integer slices, under
    keys spelled as the tags of the fields are. *)
Inductive Value : Type :=
| VNil
| VBool (b : bool)
| VInt (z : Z)
| VString (s : string)
| VInts (l : list Z).

(** [json.Unmarshal] into a field of each type, given the member found
    for the field's key, if any: an absent member and [null] leave a
    scalar field alone, [null] makes a slice nil, a value of another type
    or an integer out of the field's range is an error. *)
Definition intoString (key : string) (v : option Value) (old : string)
  : error + string :=
  match v with
  | None | Some VNil => inr old
  | Some (VString s) => inr s
  | Some _ => inl (UnmarshalTypeError key)
  end.

Definition intoBool (key : string) (v : option Value) (old : bool)
  : error + bool :=
  match v with
  | None | Some VNil => inr old
  | Some (VBool b) => inr b
  | Some _ => inl (UnmarshalTypeError key)
  end.

Definition intoInt (bits : Z) (key : string) (v : option Value) (old : Z)
  : error + Z :=
  match v with
  | None | Some VNil => inr old
  | Some (VInt z) =>
      if decide (inInt bits z) then inr z else inl (UnmarshalTypeError key)
  | Some _ => inl (UnmarshalTypeError key)
  end.

Definition intoInts (key : string) (v : option Value) (old : option (list Z))
  : error + option (list Z) :=
  match v with
  | None => inr old
  | Some VNil => inr None
  | Some (VInts l) =>
      if decide (Forall (inInt 64) l) then inr (Some l)
      else inl (UnmarshalTypeError key)
  | Some _ => inl (UnmarshalTypeError key)
  end.

(** The error monad of the decoding: the first error is the one
    [json.Unmarshal] returns. *)
Definition bindE {A B : Type} (m : error + A) (k : A → error + B) : error + B :=
  match m with
  | inl e => inl e
  | inr a => k a
  end.

Notation "'letE' x := m 'in' k" := (bindE m (λ x, k))
  (at level 10, x name, m at level 100, k at level 200).

(** [json.Unmarshal(b, c)] for [b] the encoding of [config]: every field
    is looked up under the key of its tag.  [json.Marshal] writes the
    members in the order of their keys, and that is the order in which
    they are decoded. *)
Definition unmarshalConsumerConfig (config : gmap string Value)
    (c : ConsumerConfig) : error + ConsumerConfig :=
  let field {A} (into : string → option Value → A → error + A)
        (key : string) (old : A) := into key (config !! key) old in
  letE autoCommit := field intoBool "auto.commit" (AutoCommit c) in
  letE autoCommitIntervalMS :=
    field (intoInt 64) "auto.commit.interval.ms" (AutoCommitIntervalMS c) in
  letE bootstrapServers :=
    field intoString "bootstrap.servers" (BootstrapServers c) in
  letE clientID := field intoString "client.id" (ClientID c) in
  letE commitAfterFetch :=
    field intoBool "commit.after.fetch" (CommitAfterFetch c) in
  letE connectTimeoutMS :=
    field (intoInt 64) "connect.timeout.ms" (ConnectTimeoutMS c) in
  letE fetchMaxBytes := field (intoInt 32) "fetch.max.bytes" (FetchMaxBytes c) in
  letE fetchMaxWaitMS :=
    field (intoInt 32) "fetch.max.wait.ms" (FetchMaxWaitMS c) in
  letE fetchMinBytes := field (intoInt 32) "fetch.min.bytes" (FetchMinBytes c) in
  letE fromBeginning := field intoBool "frombeginning" (FromBeginning c) in
  letE groupID := field intoString "group.id" (GroupID c) in
  letE metadataMaxAgeMS :=
    field (intoInt 64) "metadata.max.age.ms" (MetadataMaxAgeMS c) in
  letE offsetsStorage := field (intoInt 64) "offsets.storage" (OffsetsStorage c) in
  letE retryBackOffMS :=
    field (intoInt 64) "retry.backoff.ms" (RetryBackOffMS c) in
  letE sessionTimeoutMS :=
    field (intoInt 32) "session.timeout.ms" (SessionTimeoutMS c) in
  letE timeoutMS := field (intoInt 64) "timeout.ms" (TimeoutMS c) in
  letE timeoutMSForEachAPI :=
    field intoInts "timeout.ms.for.eachapi" (TimeoutMSForEachAPI c) in
  inr {| BootstrapServers := bootstrapServers;
         ClientID := clientID;
         GroupID := groupID;
         RetryBackOffMS := retryBackOffMS;
         MetadataMaxAgeMS := metadataMaxAgeMS;
         SessionTimeoutMS := sessionTimeoutMS;
         FetchMaxWaitMS := fetchMaxWaitMS;
         FetchMaxBytes := fetchMaxBytes;
         FetchMinBytes := fetchMinBytes;
         FromBeginning := fromBeginning;
         AutoCommit := autoCommit;
         CommitAfterFetch := commitAfterFetch;
         AutoCommitIntervalMS := autoCommitIntervalMS;
         OffsetsStorage := offsetsStorage;
         ConnectTimeoutMS := connectTimeoutMS;
         TimeoutMS := timeoutMS;
         TimeoutMSForEachAPI := timeoutMSForEachAPI |}.

Section Consumer.
Context `{APIKeys}.

(** The identifiers index the vector of 38 entries, and no two of them
    are the same. *)
Definition keysInRange : Prop :=
  (API_JoinGroup < 38)%nat ∧ (API_OffsetCommitRequest < 38)%nat ∧
  (API_FetchRequest < 38)%nat.
Definition keysDistinct : Prop :=
  API_JoinGroup ≠ API_OffsetCommitRequest ∧
  API_JoinGroup ≠ API_FetchRequest ∧
  API_OffsetCommitRequest ≠ API_FetchRequest.

(** Lines 79-87 and 104-112: the per-API timeouts are derived when the
    vector is nil. *)
Definition deriveTimeoutMSForEachAPI (c : ConsumerConfig)
  : option ConsumerConfig :=
  match TimeoutMSForEachAPI c with
  | None =>
      let v := replicate 38 (TimeoutMS c) in
      v ← assignIndex v API_JoinGroup (wrapInt (SessionTimeoutMS c + 5000));
      v ← assignIndex v API_OffsetCommitRequest (SessionTimeoutMS c ÷ 2);
      v ← assignIndex v API_FetchRequest (wrapInt (TimeoutMS c + FetchMaxWaitMS c));
      Some (setTimeoutMSForEachAPI c (Some v))
  | Some _ => Some c
  end.

Definition DefaultConsumerConfig : option ConsumerConfig :=
  let c :=
    {| BootstrapServers := "";
       ClientID := "";
       GroupID := "";
       SessionTimeoutMS := 30000;
       RetryBackOffMS := 100;
       MetadataMaxAgeMS := 300000;
       FetchMaxWaitMS := 100;
       FetchMaxBytes := 10 * 1024 * 1024;
       FetchMinBytes := 1;
       FromBeginning := false;
       AutoCommit := true;
       CommitAfterFetch := false;
       AutoCommitIntervalMS := 5000;
       OffsetsStorage := 1;
       ConnectTimeoutMS := 30000;
       TimeoutMS := 30000;
       TimeoutMSForEachAPI := None |} in
  deriveTimeoutMSForEachAPI c.

(** The outer option is a panic; the result is the pair the function
    returns.  [json.Marshal] does not fail on the values of [Value]. *)
Definition GetConsumerConfig (config : gmap string Value)
  : option (option ConsumerConfig * option error) :=
  c ← DefaultConsumerConfig;
  match unmarshalConsumerConfig config c with
  | inl err => Some (None, Some err)
  | inr c =>
      c ← deriveTimeoutMSForEachAPI c;
      Some (Some c, None)
  end.

End Consumer.

(** The vector of the default configuration under [kafkaAPIKeys]. *)
Definition defaultTimeouts : list Z :=
  <[11%nat := 35000]> (<[8%nat := 15000]> (<[1%nat := 30100]> (replicate 38 30000))).

(** A mapping that overrides the timeout and nothing else. *)
Definition timeoutOnly : gmap string Value := {[ "timeout.ms" := VInt 1000 ]}.



Definition wideSessionTimeout : gmap string Value :=
  {[ "session.timeout.ms" := VInt 3000000000 ]}.

(** The default configuration with the given timeout and vector. *)
Definition configWith (timeoutMS : Z) (v : list Z) : ConsumerConfig :=
  {| BootstrapServers := "";
     ClientID := "";
     GroupID := "";
     SessionTimeoutMS := 30000;
     RetryBackOffMS := 100;
     MetadataMaxAgeMS := 300000;
     FetchMaxWaitMS := 100;
     FetchMaxBytes := 10 * 1024 * 1024;
     FetchMinBytes := 1;
     FromBeginning := false;
     AutoCommit := true;
     CommitAfterFetch := false;
     AutoCommitIntervalMS := 5000;
     OffsetsStorage := 1;
     ConnectTimeoutMS := 30000;
     TimeoutMS := timeoutMS;
     TimeoutMSForEachAPI := Some v |}.


(** [ConsumerConfig.checkValid]; [None] is the nil error. *)
Module Consumer.

Definition checkValid (config : ConsumerConfig) : option error :=
  if decide (BootstrapServers config = "") then Some bootstrapServersNotSet
  else if decide (GroupID config = "") then Some emptyGroupID
  else if decide (OffsetsStorage config ≠ 0 ∧ OffsetsStorage config ≠ 1)
       then Some invallidOffsetsStorageConfig
  else None.

End Consumer.

(** [BrokerConfig].  [getBrokerConfigFromConsumerConfig] hands the slice of
    the consumer configuration on as it is. *)
Module Broker.

Record BrokerConfig : Type := mkBrokerConfig {
  ConnectTimeoutMS : Z;
  TimeoutMS : Z;
  TimeoutMSForEachAPI : option (list Z);
  MetadataRefreshIntervalMS : Z
}.

Definition DefaultBrokerConfig : BrokerConfig :=
  {| ConnectTimeoutMS := 60000;
     TimeoutMS := 30000;
     TimeoutMSForEachAPI := Some [];
     MetadataRefreshIntervalMS := 300 * 1000 |}.

Definition getBrokerConfigFromConsumerConfig (c : ConsumerConfig) : BrokerConfig :=
  let b := DefaultBrokerConfig in
  {| ConnectTimeoutMS := Config.ConnectTimeoutMS c;
     TimeoutMS := Config.TimeoutMS c;
     TimeoutMSForEachAPI := Config.TimeoutMSForEachAPI c;
     MetadataRefreshIntervalMS := MetadataRefreshIntervalMS b |}.

Definition checkValid (c : BrokerConfig) : option error := None.

End Broker.

(** [ProducerConfig], in a module of its own for the field names it shares
    with [ConsumerConfig]. *)
Module Producer.

Record ProducerConfig : Type := mkProducerConfig {
  BootstrapServers : string;
  ClientID : string;
  Acks : Z;
  CompressionType : string;
  BatchSize : Z;
  MessageMaxCount : Z;
  FlushIntervalMS : Z;
  MetadataMaxAgeMS : Z;
  FetchTopicMetaDataRetrys : Z;
  ConnectionsMaxIdleMS : Z;
  Retries : Z;
  RequestTimeoutMS : Z
}.

Definition DefaultProducerConfig : ProducerConfig :=
  {| BootstrapServers := "";
     ClientID := "healer";
     Acks := 1;
     CompressionType := "none";
     BatchSize := 16384;
     MessageMaxCount := 1024;
     FlushIntervalMS := 200;
     MetadataMaxAgeMS := 300000;
     FetchTopicMetaDataRetrys := 3;
     ConnectionsMaxIdleMS := 540000;
     Retries := 0;
     RequestTimeoutMS := 30000 |}.

(** [ProducerConfig.checkValid]; [None] is the nil error. *)
Definition checkValid (config : ProducerConfig) : option error :=
  if decide (BootstrapServers config = "") then Some bootstrapServersNotSet
  else if decide (MessageMaxCount config ≤ 0) then Some messageMaxCountError
  else if decide (FlushIntervalMS config ≤ 0) then Some flushIntervalMSError
  else if decide (CompressionType config = "none") then None
  else if decide (CompressionType config = "gzip") then None
  else if decide (CompressionType config = "snappy") then None
  else if decide (CompressionType config = "lz4") then None
  else Some unknownCompressionType.

(** The default configuration with the servers set and the given
    compression type. *)
Definition withCompression (compressionType : string) : ProducerConfig :=
  {| BootstrapServers := "localhost:9092";
     ClientID := "healer";
     Acks := 1;
     CompressionType := compressionType;
     BatchSize := 16384;
     MessageMaxCount := 1024;
     FlushIntervalMS := 200;
     MetadataMaxAgeMS := 300000;
     FetchTopicMetaDataRetrys := 3;
     ConnectionsMaxIdleMS := 540000;
     Retries := 0;
     RequestTimeoutMS := 30000 |}.

End Producer.

End Config.

(** ** Test vectors

    Big-endian encoders used to write response buffers down. *)

Module Vectors.
Import Binary.

Definition u8 (z : Z) : byte :=
  default x00 (Byte.of_N (Z.to_N (z mod 256))).

Fixpoint be (width : nat) (z : Z) : list byte :=
  match width with
  | O => []
  | S w => u8 (z / 256 ^ Z.of_nat w) :: be w z
  end.

Definition str (s : string) : list byte := list_byte_of_string s.

(** A length-prefixed string: [uint16] length, then the bytes. *)
Definition lstr (s : string) : list byte :=
  be 2 (Z.of_nat (String.length s)) ++ str s.

(** A nullable byte field: [int32] length, then the bytes. *)
Definition lbytes (s : string) : list byte :=
  be 4 (Z.of_nat (String.length s)) ++ str s.
Definition absent : list byte := be 4 (-1).

(** One message record with the given offset, key and value fields. *)
Definition message (offset : Z) (key value : list byte) : list byte :=
  be 8 offset ++ be 4 0 ++ be 4 0 ++ [x00; x00] ++ key ++ value.

(** Header of a fetch response with one topic [name] and one partition
    declaring [count] messages. *)
Definition fetchHeader (name : string) (count : Z) : list byte :=
  be 4 1 ++ lstr name ++ be 4 1 ++
  be 4 0 ++ be 2 3 ++ be 8 77 ++ be 4 count.

(** Two complete messages. *)
Definition fetchComplete : ByteSlice :=
  ofBytes (fetchHeader "t" 2 ++ message 5 absent (lbytes "ab")
                             ++ message 6 (lbytes "") (lbytes "cd")).

(** Three messages declared, two present, the second ending at the end of
    the buffer. *)
Definition fetchShort : ByteSlice :=
  ofBytes (fetchHeader "t" 3 ++ message 5 absent (lbytes "ab")
                             ++ message 6 (lbytes "") (lbytes "cd")).

(** Two messages declared; the value of the second announces four bytes of
    which the buffer holds two. *)
Definition fetchTruncated : ByteSlice :=
  ofBytes (fetchHeader "t" 2 ++ message 5 absent (lbytes "ab")
                             ++ message 6 absent (be 4 4 ++ str "cd")).

(** The bytes of [fetchTruncated] in a slice with two more bytes of
    capacity. *)
Definition fetchTruncatedSpare : ByteSlice :=
  mkSlice (data fetchTruncated) (str "ef").

(** What the decoder makes of [fetchShort]: the third entry of the
    message set is never reached. *)
Definition fetchShortStored : list FetchResponse.Message :=
  [FetchResponse.mkMessage 5 0 0 0 0 None (Some (str "ab"));
   FetchResponse.mkMessage 6 0 0 0 0 (Some []) (Some (str "cd"))].

Definition fetchShortPartition : FetchResponse.TopicData :=
  FetchResponse.mkTopicData 0 3 77 3
    (fetchShortStored ++ [FetchResponse.zeroMessage]).

Definition fetchShortTopic : FetchResponse.TopicEntry :=
  FetchResponse.mkTopicEntry "t" [fetchShortPartition].

(** Two partitions announced, the first with one message announced that
    ends where the buffer ends. *)
Definition fetchEndsEarly : ByteSlice :=
  ofBytes (be 4 1 ++ lstr "t" ++ be 4 2 ++
           be 4 0 ++ be 2 0 ++ be 8 77 ++ be 4 1 ++ message 5 absent (lbytes "ab")).

(** One partition whose message-set size is -2. *)
Definition fetchNegativeSize : ByteSlice := ofBytes (fetchHeader "t" (-2)).

(** One message whose key length is -2. *)
Definition fetchNegativeKey : ByteSlice :=
  ofBytes (fetchHeader "t" 1 ++ message 5 (be 4 (-2)) absent).

(** The topology response. *)
Definition partition (code id leader : Z) : list byte :=
  be 2 code ++ be 4 id ++ be 4 leader ++ be 4 1 ++ be 4 leader ++ be 4 0.

Definition topic (code : Z) (name : string) (parts : list (list byte))
  : list byte :=
  be 2 code ++ lstr name ++ be 4 (Z.of_nat (length parts)) ++ concat parts.

Definition broker (id : Z) (host : string) (port : Z) : list byte :=
  be 4 id ++ lstr host ++ be 4 port.

Definition metadata (brokers topics : list (list byte)) : ByteSlice :=
  let body :=
    be 4 7 ++ be 4 (Z.of_nat (length brokers)) ++ concat brokers ++
    be 4 (Z.of_nat (length topics)) ++ concat topics in
  ofBytes (be 4 (Z.of_nat (length body)) ++ body).

(** One topic whose partitions come as 2, 0, 1; partition 1 has no
    leader. *)
Definition metadataOrders : ByteSlice :=
  metadata [broker 1 "kafka1" 9092]
    [topic 0 "orders" [partition 0 2 1; partition 0 0 1; partition 0 1 (-1)]].

Definition metadataOrdersResponse : Metadata.MetadataResponse :=
  Metadata.mkMetadataResponse 7 [Metadata.mkBrokerInfo 1 "kafka1" 9092]
    [Metadata.mkTopicMetadata 0 "orders"
       [Metadata.mkPartitionMetadataInfo 0 0 1 [1] [];
        Metadata.mkPartitionMetadataInfo 0 1 (-1) [-1] [];
        Metadata.mkPartitionMetadataInfo 0 2 1 [1] []]].

(** Two topics on the wire as "b" then "a". *)
Definition metadataTwoTopics : ByteSlice :=
  metadata [] [topic 0 "b" [partition 0 0 1]; topic 0 "a" [partition 0 0 1]].

(** The same topic name twice. *)
Definition metadataSameName : ByteSlice :=
  metadata [] [topic 0 "a" [partition 0 0 1]; topic 0 "a" [partition 0 1 1]].

(** A topic with code 9, the benign one, whose partition has code 3. *)
Definition metadataBenignThenError : ByteSlice :=
  metadata [] [topic 9 "a" [partition 3 0 1]].

Definition metadataBenignThenErrorResponse : Metadata.MetadataResponse :=
  Metadata.mkMetadataResponse 7 []
    [Metadata.mkTopicMetadata 9 "a"
       [Metadata.mkPartitionMetadataInfo 3 0 1 [1] []]].

(** A frame whose length field is one too large. *)
Definition metadataBadLength : ByteSlice :=
  ofBytes (be 4 9 ++ be 4 7 ++ be 4 0).

End Vectors.


(** * Properties *)

(** ** Byte slices and integers *)

Module BinaryFacts.
Import Binary.

Lemma sliceFrom_Some p off b :
  sliceFrom p off = Some b ↔ (off ≤ len p)%nat ∧ b = drop off (data p).
Proof. unfold sliceFrom. destruct (decide _); intuition congruence. Qed.

Lemma sliceRange_Some p lo hi b :
  sliceRange p lo hi = Some b ↔
  (lo ≤ hi ≤ cap p)%nat ∧ b = take (hi - lo) (drop lo (data p ++ spare p)).
Proof. unfold sliceRange. destruct (decide _); intuition congruence. Qed.

Lemma sliceRange_length p lo hi b :
  sliceRange p lo hi = Some b → length b = (hi - lo)%nat.
Proof.
  rewrite sliceRange_Some. intros [[? ?] ->].
  rewrite length_take, length_drop. unfold cap in *. lia.
Qed.

Lemma beUint_Some w b z :
  beUint w b = Some z ↔ (w ≤ length b)%nat ∧ z = beValue (take w b).
Proof. unfold beUint. destruct (decide _); intuition congruence. Qed.

(** A read of [w] bytes at [off] succeeds exactly when they lie below
    [len]. *)
Lemma readUint32_Some p off z :
  readUint32 p off = Some z ↔
  (off + 4 ≤ len p)%nat ∧ z = beValue (take 4 (drop off (data p))).
Proof.
  unfold readUint32, Uint32. split.
  - intros Hb. apply bind_Some in Hb as (b & Hs & Hu).
    apply sliceFrom_Some in Hs as [? ->].
    apply beUint_Some in Hu as [Hl ->].
    rewrite length_drop in Hl. unfold len in *. split; [lia | done].
  - intros [Hl ->]. apply bind_Some. exists (drop off (data p)). split.
    + apply sliceFrom_Some. split; [lia | done].
    + apply beUint_Some. rewrite length_drop. unfold len in *. split; [lia | done].
Qed.

End BinaryFacts.

(** ** The sorting contract *)

Module SortFacts.
Import Sort.

Section Ordering.
Context {A : Type} (less : A → A → bool) (Hless : TransitiveOrdering less).

Lemma less_asym a b : less a b = true → less b a = false.
Proof.
  intros Hab. destruct (less b a) eqn:Hba; [| done].
  rewrite <- (less_irrefl less Hless a). symmetry.
  by apply (less_trans less Hless a b a).
Qed.

#[local] Instance inOrder_trans : Transitive (inOrder less).
Proof.
  intros a b c Hab Hbc. unfold inOrder in *.
  by apply (notless_trans less Hless c b a).
Qed.

#[local] Instance inOrder_total : Total (inOrder less).
Proof.
  intros a b. unfold inOrder.
  destruct (less b a) eqn:Hba; [right; by apply less_asym | by left].
Qed.

Lemma mergeSort_Sorted x : Sorted (inOrder less) (mergeSort less x).
Proof. unfold mergeSort. apply (Sorted_merge_sort (inOrder less)). Qed.

(** What a caller of any sorter may use: every element is in order with
    every later one. *)
Lemma sort_Slice_StronglySorted `{SliceSorter} x :
  StronglySorted (inOrder less) (sort_Slice less x).
Proof.
  apply Sorted_StronglySorted; [apply _ |]. by apply sort_Slice_Sorted.
Qed.

End Ordering.

Lemma mergeSort_Permutation {A} (less : A → A → bool) x : mergeSort less x ≡ₚ x.
Proof. unfold mergeSort. apply merge_sort_Permutation. Qed.

(** The merge sort of stdpp meets the contract of [sort.Slice]. *)
Definition mergeSorter : SliceSorter :=
  {| sort_Slice := @mergeSort;
     sort_Slice_Permutation := @mergeSort_Permutation;
     sort_Slice_Sorted := λ A less x Hless, mergeSort_Sorted less Hless x |}.

Lemma StronglySorted_impl {A} (R1 R2 : relation A) (l : list A) :
  (∀ a b, R1 a b → R2 a b) → StronglySorted R1 l → StronglySorted R2 l.
Proof.
  intros Himpl Hs. induction Hs as [| a l Hs IH Hall]; constructor; [done |].
  eapply Forall_impl; [exact Hall | auto].
Qed.

(** An ordering by a key: strictly sorted keys once they are pairwise
    distinct. *)
Lemma StronglySorted_NoDup_strict {A K} (key : A → K) (le lt : relation K)
    (l : list A) :
  (∀ a b, le a b → a ≠ b → lt a b) →
  StronglySorted (λ a b, le (key a) (key b)) l →
  NoDup (key <$> l) →
  StronglySorted (λ a b, lt (key a) (key b)) l.
Proof.
  intros Hlt Hs. induction Hs as [| a l Hs IH Hall]; intros Hnd.
  - constructor.
  - rewrite fmap_cons in Hnd. apply NoDup_cons in Hnd as [Hnotin Hnd].
    constructor; [by apply IH |].
    rewrite Forall_forall in Hall |- *. intros b Hb.
    apply Hlt; [by apply Hall |].
    intros Heq. apply Hnotin. rewrite Heq.
    apply list_elem_of_fmap. by exists b.
Qed.

End SortFacts.

(** ** The fetch response *)

Module FetchFacts.
Import Binary FetchResponse BinaryFacts.

(** *** The message loop *)

Lemma decodeMessages_Records payload n offset ms offset' :
  decodeMessages payload n offset = Some (ms, offset') →
  Records payload offset ms offset' ∧
  (length ms = n ∨ (ms ≠ [] ∧ (length ms < n)%nat ∧ offset' = len payload)).
Proof.
  revert offset ms offset'.
  induction n as [| n IH]; intros offset ms offset' Hdec; simpl in Hdec.
  - injection Hdec as <- <-. split; [constructor | by left].
  - destruct (decodeMessage payload offset) as [[m offset1] |] eqn:Hm;
      simpl in Hdec; [| done].
    destruct (decide (offset1 = len payload)) as [Hend | Hend].
    + injection Hdec as <- <-. split.
      * econstructor; [exact Hm | done | constructor].
      * destruct n as [| n]; [by left |].
        right. repeat split; [done | simpl; lia | done].
    + destruct (decodeMessages payload n offset1) as [[ms1 offset2] |] eqn:Hrest;
        simpl in Hdec; [| done].
      injection Hdec as <- <-.
      destruct (IH _ _ _ Hrest) as [Hrec Hlen]. split.
      * econstructor; [exact Hm | done | exact Hrec].
      * destruct Hlen as [Hlen | (Hne & Hlt & Hstop)].
        -- left. simpl. by rewrite Hlen.
        -- right. repeat split; [done | simpl; lia | done].
Qed.


Lemma length_fillMessageSet size stored :
  (length stored ≤ size)%nat → length (fillMessageSet size stored) = size.
Proof.
  intros Hle. unfold fillMessageSet. rewrite length_app, length_replicate. lia.
Qed.

(** *** Where the entries of the result come from *)

Lemma decodeTopicDatas_elem payload n offset ds offset' d :
  decodeTopicDatas payload n offset = Some (ds, offset') → d ∈ ds →
  ∃ o o', decodeTopicData payload o = Some (d, o').
Proof.
  revert offset ds offset'.
  induction n as [| n IH]; intros offset ds offset' Hdec Hin; simpl in Hdec.
  - injection Hdec as <- <-. by apply elem_of_nil in Hin.
  - destruct (decodeTopicData payload offset) as [[d1 o1] |] eqn:Hd;
      simpl in Hdec; [| done].
    destruct (decodeTopicDatas payload n o1) as [[ds1 o2] |] eqn:Hrest;
      simpl in Hdec; [| done].
    injection Hdec as <- <-.
    apply elem_of_cons in Hin as [-> | Hin]; [by eauto |].
    by eapply IH.
Qed.

Lemma decodeTopics_elem payload n offset ts offset' t :
  decodeTopics payload n offset = Some (ts, offset') → t ∈ ts →
  ∃ o o', decodeTopic payload o = Some (t, o').
Proof.
  revert offset ts offset'.
  induction n as [| n IH]; intros offset ts offset' Hdec Hin; simpl in Hdec.
  - injection Hdec as <- <-. by apply elem_of_nil in Hin.
  - destruct (decodeTopic payload offset) as [[t1 o1] |] eqn:Ht;
      simpl in Hdec; [| done].
    destruct (decodeTopics payload n o1) as [[ts1 o2] |] eqn:Hrest;
      simpl in Hdec; [| done].
    injection Hdec as <- <-.
    apply elem_of_cons in Hin as [-> | Hin]; [by eauto |].
    by eapply IH.
Qed.

(** Every partition of a decoded response was read by [decodeTopicData]
    somewhere in the buffer. *)
Lemma DecodeFetchResponse_elem payload r e t d :
  DecodeFetchResponse payload = Some (r, e) →
  t ∈ r → d ∈ TopicDatas t →
  ∃ o o', decodeTopicData payload o = Some (d, o').
Proof.
  unfold DecodeFetchResponse. intros Hdec Ht Hd.
  destruct (readUint32 payload 0) as [c |]; simpl in Hdec; [| done].
  destruct (decodeTopics payload _ _) as [[ts o] |] eqn:Hts;
    simpl in Hdec; [| done].
  injection Hdec as <- <-.
  destruct (decodeTopics_elem _ _ _ _ _ _ Hts Ht) as (o1 & o2 & Htopic).
  unfold decodeTopic in Htopic.
  destruct (readUint16 payload o1) as [nl |]; simpl in Htopic; [| done].
  destruct (sliceRange payload _ _) as [name |]; simpl in Htopic; [| done].
  destruct (readUint32 payload _) as [cnt |]; simpl in Htopic; [| done].
  destruct (decodeTopicDatas payload _ _) as [[ds o3] |] eqn:Hds;
    simpl in Htopic; [| done].
  injection Htopic as <- <-. simpl in Hd.
  by eapply decodeTopicDatas_elem.
Qed.

(** The fields of one partition, as [decodeTopicData] reads them. *)
Lemma decodeTopicData_fields payload offset d offset' :
  decodeTopicData payload offset = Some (d, offset') →
  ∃ part ec hw sz stored,
    readUint32 payload offset = Some part ∧
    readUint16 payload (offset + 4) = Some ec ∧
    readUint64 payload (offset + 6) = Some hw ∧
    readUint32 payload (offset + 14) = Some sz ∧
    0 ≤ int32 sz ∧
    decodeMessages payload (Z.to_nat (int32 sz)) (offset + 18) = Some (stored, offset') ∧
    d = mkTopicData (int32 part) (int16 ec) (int64 hw) (int32 sz)
          (fillMessageSet (Z.to_nat (int32 sz)) stored).
Proof.
  unfold decodeTopicData. intros Hdec.
  destruct (readUint32 payload offset) as [part |]; simpl in Hdec; [| done].
  destruct (readUint16 payload (offset + 4)) as [ec |]; simpl in Hdec; [| done].
  replace (offset + 4 + 2)%nat with (offset + 6)%nat in Hdec by lia.
  destruct (readUint64 payload (offset + 6)) as [hw |]; simpl in Hdec; [| done].
  replace (offset + 6 + 8)%nat with (offset + 14)%nat in Hdec by lia.
  destruct (readUint32 payload (offset + 14)) as [sz |]; simpl in Hdec; [| done].
  replace (offset + 14 + 4)%nat with (offset + 18)%nat in Hdec by lia.
  destruct (decide (int32 sz < 0)) as [Hneg | Hpos]; [done |].
  destruct (decodeMessages payload _ _) as [[stored o] |] eqn:Hms;
    simpl in Hdec; [| done].
  injection Hdec as <- <-.
  exists part, ec, hw, sz, stored. repeat split; try done. lia.
Qed.

(** Two messages announced and present: a nil key next to an empty one. *)
Example DecodeFetchResponse_complete :
  ∃ d m1 m2,
    DecodeFetchResponse Vectors.fetchComplete =
      Some ([mkTopicEntry "t" [d]], None) ∧
    MessageSet d = [m1; m2] ∧
    Key m1 = None ∧ Key m2 = Some [] ∧ ErrorCode d = 3.
Proof. eexists _, _, _. repeat split; vm_compute; reflexivity. Qed.

(** *** The message-set size as a count *)

(** C4: every partition of a decoded fetch response carries the
    message-set-size field as read from the wire, the field is a count: the
    message set has exactly that many entries, and the records decoded
    into it, one after the other from the end of the partition header, are
    that many, unless the loop stopped after a record that ended at the
    length of the buffer; the entries not reached keep their zero
    value. *)
Theorem DecodeFetchResponse_message_count payload r e t d :
  DecodeFetchResponse payload = Some (r, e) →
  t ∈ r → d ∈ TopicDatas t →
  ∃ offset offset' sz stored,
    readUint32 payload (offset + 14) = Some sz ∧
    MessageSetSize d = int32 sz ∧
    0 ≤ MessageSetSize d ∧
    length (MessageSet d) = Z.to_nat (MessageSetSize d) ∧
    Records payload (offset + 18) stored offset' ∧
    MessageSet d =
      stored ++ replicate (Z.to_nat (MessageSetSize d) - length stored) zeroMessage ∧
    (length stored = Z.to_nat (MessageSetSize d) ∨
     (stored ≠ [] ∧ (length stored < Z.to_nat (MessageSetSize d))%nat ∧
      offset' = len payload)).
Proof.
  intros Hdec Ht Hd.
  destruct (DecodeFetchResponse_elem _ _ _ _ _ Hdec Ht Hd) as (o & o' & Hpart).
  destruct (decodeTopicData_fields _ _ _ _ Hpart)
    as (part & ec & hw & sz & stored & _ & _ & _ & Hsz & Hpos & Hms & ->).
  destruct (decodeMessages_Records _ _ _ _ _ Hms) as [Hrec Hlen].
  exists o, o', sz, stored. simpl. repeat split; try done.
  apply length_fillMessageSet. destruct Hlen as [-> | (_ & ? & _)]; lia.
Qed.

Lemma DecodeFetchResponse_message_count_witness :
  ∃ offset offset' sz stored,
    readUint32 Vectors.fetchShort (offset + 14) = Some sz ∧
    MessageSetSize Vectors.fetchShortPartition = int32 sz ∧
    0 ≤ MessageSetSize Vectors.fetchShortPartition ∧
    length (MessageSet Vectors.fetchShortPartition) =
      Z.to_nat (MessageSetSize Vectors.fetchShortPartition) ∧
    Records Vectors.fetchShort (offset + 18) stored offset' ∧
    MessageSet Vectors.fetchShortPartition =
      stored ++ replicate
        (Z.to_nat (MessageSetSize Vectors.fetchShortPartition) - length stored)
        zeroMessage ∧
    (length stored = Z.to_nat (MessageSetSize Vectors.fetchShortPartition) ∨
     (stored ≠ [] ∧
      (length stored < Z.to_nat (MessageSetSize Vectors.fetchShortPartition))%nat ∧
      offset' = len Vectors.fetchShort)).
Proof.
  apply (DecodeFetchResponse_message_count Vectors.fetchShort
           [Vectors.fetchShortTopic] None
           Vectors.fetchShortTopic Vectors.fetchShortPartition).
  - vm_compute. reflexivity.
  - apply list_elem_of_here.
  - apply list_elem_of_here.
Defined.

(** *** The early stop *)


(** Why: a length field that announces more bytes than the capacity of the
    buffer leaves is a slice expression out of range. *)
Lemma decodeBytes_short_panics payload offset u :
  readUint32 payload offset = Some u →
  0 ≤ int32 u →
  (cap payload < offset + 4 + Z.to_nat (int32 u))%nat →
  decodeBytes payload offset = None.
Proof.
  intros Hu Hpos Hcap. unfold decodeBytes. rewrite Hu.
  cbn [mbind option_bind].
  destruct (decide (int32 u = -1)); [lia |].
  destruct (decide (int32 u < 0)); [lia |].
  unfold sliceRange. destruct (decide _) as [[_ Hle] | _]; [lia | done].
Qed.

(** With capacity beyond the length the same bytes are decoded, and the
    value of the second message takes two bytes from beyond the length of
    the buffer. *)
Example DecodeFetchResponse_reads_spare_capacity :
  ∃ d m1 m2,
    DecodeFetchResponse Vectors.fetchTruncatedSpare =
      Some ([mkTopicEntry "t" [d]], None) ∧
    MessageSet d = [m1; m2] ∧
    Value m2 = Some (Vectors.str "cdef").
Proof. eexists _, _, _. repeat split; vm_compute; reflexivity. Qed.



(** *** The overall error *)

(** C6: whatever [DecodeFetchResponse] decodes, the error it returns is
    nil; the error code of each partition is the [int16] of the wire,
    four bytes into the partition, and goes nowhere but into
    [ErrorCode]. *)
Theorem DecodeFetchResponse_error_nil payload r e :
  DecodeFetchResponse payload = Some (r, e) →
  e = None ∧
  ∀ t d, t ∈ r → d ∈ TopicDatas t →
    ∃ offset ec,
      readUint16 payload (offset + 4) = Some ec ∧ ErrorCode d = int16 ec.
Proof.
  intros Hdec. split.
  - unfold DecodeFetchResponse in Hdec.
    destruct (readUint32 payload 0); simpl in Hdec; [| done].
    destruct (decodeTopics payload _ _) as [[ts o] |]; simpl in Hdec; [| done].
    by injection Hdec as _ <-.
  - intros t d Ht Hd.
    destruct (DecodeFetchResponse_elem _ _ _ _ _ Hdec Ht Hd) as (o & o' & Hpart).
    destruct (decodeTopicData_fields _ _ _ _ Hpart)
      as (part & ec & hw & sz & stored & _ & Hec & _ & _ & _ & _ & ->).
    by exists o, ec.
Qed.

Lemma DecodeFetchResponse_error_nil_witness :
  (None : option error) = None ∧
  ∀ t d, t ∈ [Vectors.fetchShortTopic] → d ∈ TopicDatas t →
    ∃ offset ec,
      readUint16 Vectors.fetchShort (offset + 4) = Some ec ∧
      ErrorCode d = int16 ec.
Proof.
  apply (DecodeFetchResponse_error_nil Vectors.fetchShort
           [Vectors.fetchShortTopic] None).
  vm_compute. reflexivity.
Defined.

(** *** Keys and values *)

(** The key and the value of a message are what [decodeBytes] reads at
    their positions. *)
Lemma decodeMessage_Key_Value payload offset m offset' :
  decodeMessage payload offset = Some (m, offset') →
  ∃ valueOffset,
    decodeBytes payload (offset + 18) = Some (Key m, valueOffset) ∧
    decodeBytes payload valueOffset = Some (Value m, offset').
Proof.
  unfold decodeMessage. intros Hdec.
  destruct (readUint64 payload offset); simpl in Hdec; [| done].
  destruct (readUint32 payload (offset + 8)); simpl in Hdec; [| done].
  destruct (readUint32 payload (offset + 8 + 4)); simpl in Hdec; [| done].
  destruct (index payload (offset + 8 + 4 + 4)); simpl in Hdec; [| done].
  destruct (index payload (offset + 8 + 4 + 4 + 1)); simpl in Hdec; [| done].
  replace (offset + 8 + 4 + 4 + 1 + 1)%nat with (offset + 18)%nat in Hdec by lia.
  destruct (decodeBytes payload (offset + 18)) as [[key vo] |];
    simpl in Hdec; [| done].
  destruct (decodeBytes payload vo) as [[value o] |] eqn:Hv;
    simpl in Hdec; [| done].
  injection Hdec as <- <-. simpl. by exists vo.
Qed.



End FetchFacts.

(** ** The topology response *)

Module MetadataFacts.
Import Binary Sort Metadata BinaryFacts SortFacts.

(** *** The two orderings handed to [sort.Slice] *)

Lemma string_compare_refl s : String.compare s s = Eq.
Proof. exact (proj2 (String_as_OT.cmp_eq s s) eq_refl). Qed.

Lemma string_ltb_irrefl s : String.ltb s s = false.
Proof. unfold String.ltb. by rewrite string_compare_refl. Qed.

Lemma string_ltb_lt a b : String.ltb a b = true ↔ String_as_OT.lt a b.
Proof.
  rewrite <- String_as_OT.cmp_lt. unfold String.ltb, String_as_OT.cmp.
  destruct (String.compare a b); intuition congruence.
Qed.

Lemma string_ltb_trans a b c :
  String.ltb a b = true → String.ltb b c = true → String.ltb a c = true.
Proof. rewrite !string_ltb_lt. apply String_as_OT.lt_trans. Qed.

(** Not less: equal, or the other way round. *)
Lemma string_ltb_false a b :
  String.ltb a b = false ↔ a = b ∨ String.ltb b a = true.
Proof.
  unfold String.ltb. rewrite (String.compare_antisym b a).
  destruct (String.compare a b) eqn:Hc; simpl.
  - apply String.compare_eq_iff in Hc. intuition congruence.
  - split; [done |]. intros [-> | ?]; [| done].
    by rewrite string_compare_refl in Hc.
  - intuition congruence.
Qed.

Lemma string_notless_trans a b c :
  String.ltb a b = false → String.ltb b c = false → String.ltb a c = false.
Proof.
  rewrite !string_ltb_false. intros [-> | Hba] [-> | Hcb]; auto.
  right. by apply (string_ltb_trans c b a).
Qed.

Lemma string_leb_ltb a b : String.leb a b = true ↔ String.ltb b a = false.
Proof.
  unfold String.leb, String.ltb. rewrite (String.compare_antisym b a).
  destruct (String.compare a b); simpl; intuition congruence.
Qed.

Lemma string_leb_neq_ltb a b :
  String.leb a b = true → a ≠ b → String.ltb a b = true.
Proof.
  unfold String.leb, String.ltb. intros Hle Hne.
  destruct (String.compare a b) eqn:Hc; [| done | done].
  by apply String.compare_eq_iff in Hc.
Qed.

Lemma lessTopicName_ordering : TransitiveOrdering lessTopicName.
Proof.
  unfold lessTopicName. split.
  - intros a. apply string_ltb_irrefl.
  - intros a b c. apply string_ltb_trans.
  - intros a b c. apply string_notless_trans.
Qed.

Lemma lessPartitionID_ordering : TransitiveOrdering lessPartitionID.
Proof.
  unfold lessPartitionID. split.
  - intros a. apply Z.ltb_irrefl.
  - intros a b c. rewrite !Z.ltb_lt. lia.
  - intros a b c. rewrite !Z.ltb_ge. lia.
Qed.

Section Decoder.
Context `{ErrorRegistry} `{SliceSorter}.

(** *** The running error *)

Lemma trackError_Some e code : trackError (Some e) code = Some e.
Proof. reflexivity. Qed.

Lemma trackErrors_Some e codes : fold_left trackError codes (Some e) = Some e.
Proof. induction codes as [| c codes IH]; [done |]. simpl. apply IH. Qed.

Lemma trackError_None code :
  trackError None code =
  if decide (reported code)
  then Some (registryError (getErrorFromErrorCode code)) else None.
Proof.
  unfold trackError, reported.
  destruct (decide (code ≠ 0)) as [Hnz | Hz].
  - destruct (decide (getErrorFromErrorCode code = AllError 9)) as [Hb | Hb].
    + destruct (decide _) as [[_ Hr] | _]; [by destruct Hr | done].
    + destruct (decide _) as [_ | Hr]; [done | by destruct Hr].
  - destruct (decide _) as [[Hr _] | _]; [by destruct Hz | done].
Qed.

(** Threading [err] from nil through a run of codes leaves the error of
    the first reported one. *)
Lemma trackErrors_None codes :
  fold_left trackError codes None = firstReportedError codes.
Proof.
  unfold firstReportedError.
  induction codes as [| c codes IH]; [done |].
  cbn [fold_left]. rewrite trackError_None.
  rewrite filter_cons. destruct (decide (reported c)).
  - apply trackErrors_Some.
  - exact IH.
Qed.

(** Where no code is benign, the first non-zero code is the first reported
    one. *)
Lemma firstNonZeroError_no_benign codes :
  Forall (λ c, c = 0 ∨ reported c) codes →
  firstNonZeroError codes = firstReportedError codes.
Proof.
  unfold firstNonZeroError, firstReportedError.
  induction 1 as [| c codes Hc _ IH]; [done |].
  rewrite !filter_cons.
  destruct Hc as [-> | Hrep].
  - destruct (decide (0 ≠ 0)); [done |].
    destruct (decide (reported 0)) as [[Hz _] | _]; [done | exact IH].
  - destruct (decide (reported c)); [| done].
    destruct Hrep as [Hnz Hnb].
    destruct (decide (c ≠ 0)); [| done].
    by destruct (decide (getErrorFromErrorCode c = AllError 9)).
Qed.

(** *** The loops *)

Lemma decodeBrokers_length payload n offset bs offset' :
  decodeBrokers payload n offset = Some (bs, offset') → length bs = n.
Proof.
  revert offset bs offset'.
  induction n as [| n IH]; intros offset bs offset' Hdec; simpl in Hdec.
  - by injection Hdec as <- <-.
  - destruct (decodeBroker payload offset) as [[b o] |]; simpl in Hdec; [| done].
    destruct (decodeBrokers payload n o) as [[bs1 o1] |] eqn:Hrest;
      simpl in Hdec; [| done].
    injection Hdec as <- <-. simpl. f_equal. by eapply IH.
Qed.

(** One partition: the snapshot part does not depend on [err], and [err]
    moves by the partition's code. *)
Lemma decodePartition_err payload offset err p offset' err' :
  decodePartition payload offset err = Some (p, offset', err') →
  ∀ err0, decodePartition payload offset err0 =
          Some (p, offset', trackError err0 (PartitionErrorCode p)).
Proof.
  unfold decodePartition. intros Hdec err0.
  destruct (readUint16 payload offset) as [ec |];
    cbn [mbind option_bind] in *; [| done].
  destruct (readUint32 payload (offset + 2)) as [pid |];
    cbn [mbind option_bind] in *; [| done].
  destruct (readUint32 payload (offset + 2 + 4)) as [leader |];
    cbn [mbind option_bind] in *; [| done].
  destruct (readUint32 payload (offset + 2 + 4 + 4)) as [rc |];
    cbn [mbind option_bind] in *; [| done].
  destruct (decodeInt32s payload (Z.to_nat rc) _) as [[reps o1] |];
    cbn [mbind option_bind] in *; [| done].
  destruct (readUint32 payload o1) as [ic |];
    cbn [mbind option_bind] in *; [| done].
  destruct (decodeInt32s payload (Z.to_nat ic) _) as [[isr o2] |];
    cbn [mbind option_bind] in *; [| done].
  by injection Hdec as <- <- <-.
Qed.

Lemma decodePartitions_err payload n offset err ps offset' err' :
  decodePartitions payload n offset err = Some (ps, offset', err') →
  length ps = n ∧
  ∀ err0, decodePartitions payload n offset err0 =
          Some (ps, offset', fold_left trackError (PartitionErrorCode <$> ps) err0).
Proof.
  revert offset err ps offset' err'.
  induction n as [| n IH]; intros offset err ps offset' err' Hdec;
    simpl in Hdec.
  - injection Hdec as <- <- <-. by split.
  - destruct (decodePartition payload offset err) as [[[p o] e] |] eqn:Hp;
      cbn [mbind option_bind] in Hdec; [| done].
    destruct (decodePartitions payload n o e) as [[[ps1 o1] e1] |] eqn:Hrest;
      cbn [mbind option_bind] in Hdec; [| done].
    injection Hdec as <- <- <-.
    destruct (IH _ _ _ _ _ Hrest) as [Hlen Hany]. split.
    + simpl. by rewrite Hlen.
    + intros err0. simpl.
      rewrite (decodePartition_err _ _ _ _ _ _ Hp err0).
      cbn [mbind option_bind]. rewrite Hany. reflexivity.
Qed.

Lemma decodeTopicMetadata_err payload offset err t offset' err' :
  decodeTopicMetadata payload offset err = Some (t, offset', err') →
  ∀ err0, decodeTopicMetadata payload offset err0 =
          Some (t, offset', fold_left trackError (errorCodes [t]) err0).
Proof.
  unfold decodeTopicMetadata. intros Hdec err0.
  destruct (readUint16 payload offset) as [ec |];
    cbn [mbind option_bind] in *; [| done].
  destruct (readUint16 payload (offset + 2)) as [nl |];
    cbn [mbind option_bind] in *; [| done].
  destruct (sliceRange payload _ _) as [name |];
    cbn [mbind option_bind] in *; [| done].
  destruct (readUint32 payload _) as [pc |];
    cbn [mbind option_bind] in *; [| done].
  destruct (decodePartitions payload (Z.to_nat pc) _ (trackError err _))
    as [[[ps o] e] |] eqn:Hps; cbn [mbind option_bind] in Hdec; [| done].
  injection Hdec as <- <- <-.
  destruct (decodePartitions_err _ _ _ _ _ _ _ Hps) as [_ Hany].
  rewrite Hany. cbn [mbind option_bind].
  unfold errorCodes. simpl. by rewrite app_nil_r.
Qed.

Lemma errorCodes_cons t ts : errorCodes (t :: ts) = errorCodes [t] ++ errorCodes ts.
Proof. unfold errorCodes. simpl. by rewrite app_nil_r. Qed.

Lemma decodeTopicMetadatas_err payload n offset err ts offset' err' :
  decodeTopicMetadatas payload n offset err = Some (ts, offset', err') →
  length ts = n ∧
  ∀ err0, decodeTopicMetadatas payload n offset err0 =
          Some (ts, offset', fold_left trackError (errorCodes ts) err0).
Proof.
  revert offset err ts offset' err'.
  induction n as [| n IH]; intros offset err ts offset' err' Hdec;
    simpl in Hdec.
  - injection Hdec as <- <- <-. by split.
  - destruct (decodeTopicMetadata payload offset err) as [[[t o] e] |] eqn:Ht;
      cbn [mbind option_bind] in Hdec; [| done].
    destruct (decodeTopicMetadatas payload n o e) as [[[ts1 o1] e1] |] eqn:Hrest;
      cbn [mbind option_bind] in Hdec; [| done].
    injection Hdec as <- <- <-.
    destruct (IH _ _ _ _ _ Hrest) as [Hlen Hany]. split.
    + simpl. by rewrite Hlen.
    + intros err0. cbn [decodeTopicMetadatas].
      rewrite (decodeTopicMetadata_err _ _ _ _ _ _ Ht err0).
      cbn [mbind option_bind]. rewrite Hany. cbn [mbind option_bind].
      by rewrite (errorCodes_cons t ts1), fold_left_app.
Qed.

Lemma length_sortTopicMetadatas ts :
  length (sortTopicMetadatas ts) = length ts.
Proof.
  unfold sortTopicMetadatas. rewrite length_fmap.
  apply Permutation_length, sort_Slice_Permutation.
Qed.

(** *** The shape of a run of [NewMetadataResponse] *)

Lemma NewMetadataResponse_Some payload r err :
  NewMetadataResponse payload = Some (r, err) →
  ∃ responseLength,
    readUint32 payload 0 = Some responseLength ∧
    ((responseLength + 4 ≠ Z.of_nat (len payload) ∧ r = None ∧
      err = Some (lengthDidNotMatch (responseLength + 4) (Z.of_nat (len payload)))) ∨
     (responseLength + 4 = Z.of_nat (len payload) ∧
      ∃ correlationID brokersCount brokers offset topicMetadatasCount wire offset',
        readUint32 payload 4 = Some correlationID ∧
        readUint32 payload 8 = Some brokersCount ∧
        decodeBrokers payload (Z.to_nat brokersCount) 12 = Some (brokers, offset) ∧
        readUint32 payload offset = Some topicMetadatasCount ∧
        decodeTopicMetadatas payload (Z.to_nat topicMetadatasCount)
          (offset + 4) None = Some (wire, offset', err) ∧
        r = Some (mkMetadataResponse correlationID brokers
                    (sortTopicMetadatas wire)))).
Proof.
  unfold NewMetadataResponse. intros Hdec.
  destruct (readUint32 payload 0) as [rl |];
    cbn [mbind option_bind] in Hdec; [| done].
  exists rl. split; [done |].
  destruct (decide (rl + 4 ≠ Z.of_nat (len payload))) as [Hne | Heq].
  - left. by injection Hdec as <- <-.
  - right. split; [lia |].
    change (0 + 4)%nat with 4%nat in Hdec.
    destruct (readUint32 payload 4) as [cid |] eqn:Hcid;
      cbn [mbind option_bind] in Hdec; [| done].
    change (4 + 4)%nat with 8%nat in Hdec.
    destruct (readUint32 payload 8) as [bc |] eqn:Hbc;
      cbn [mbind option_bind] in Hdec; [| done].
    change (8 + 4)%nat with 12%nat in Hdec.
    destruct (decodeBrokers payload (Z.to_nat bc) 12) as [[brokers o] |]
      eqn:Hbrokers; cbn [mbind option_bind] in Hdec; [| done].
    destruct (readUint32 payload o) as [tc |] eqn:Htc;
      cbn [mbind option_bind] in Hdec; [| done].
    destruct (decodeTopicMetadatas payload (Z.to_nat tc) (o + 4) None)
      as [[[wire o'] e] |] eqn:Htopics;
      cbn [mbind option_bind] in Hdec; [| done].
    injection Hdec as <- <-.
    by exists cid, bc, brokers, o, tc, wire, o'.
Qed.

(** *** The length check *)

(** C3: a buffer whose leading length field plus four differs from the
    length of the buffer gives the length error and no response,
    whatever follows the field. *)
Theorem NewMetadataResponse_length_mismatch payload totalLength :
  readUint32 payload 0 = Some totalLength →
  totalLength + 4 ≠ Z.of_nat (len payload) →
  NewMetadataResponse payload =
    Some (None,
          Some (lengthDidNotMatch (totalLength + 4) (Z.of_nat (len payload)))).
Proof.
  intros Hlen Hne. unfold NewMetadataResponse. rewrite Hlen.
  cbn [mbind option_bind]. by destruct (decide _).
Qed.

(** *** The error returned *)

(** C1, amended: when the length check passes and the decoder returns,
    it returns a response with as many brokers and topics as the two
    count fields announce, made of the topics decoded from the wire,
    which are the same whatever the running error is; and the error
    returned is that of the first code, in decode order over the
    topic- and partition-level codes, that is neither zero nor mapped to
    the entry [AllError 9], nil when there is none. *)
Theorem NewMetadataResponse_first_reported_error
    payload responseLength r err :
  NewMetadataResponse payload = Some (r, err) →
  readUint32 payload 0 = Some responseLength →
  responseLength + 4 = Z.of_nat (len payload) →
  ∃ resp brokersCount topicsOffset topicMetadatasCount wire offset',
    r = Some resp ∧
    readUint32 payload 8 = Some brokersCount ∧
    length (Brokers resp) = Z.to_nat brokersCount ∧
    readUint32 payload topicsOffset = Some topicMetadatasCount ∧
    (∀ err0,
       decodeTopicMetadatas payload (Z.to_nat topicMetadatasCount)
         (topicsOffset + 4) err0 =
       Some (wire, offset', fold_left trackError (errorCodes wire) err0)) ∧
    TopicMetadatas resp = sortTopicMetadatas wire ∧
    length (TopicMetadatas resp) = Z.to_nat topicMetadatasCount ∧
    err = firstReportedError (errorCodes wire).
Proof.
  intros Hdec Hrl Hlen.
  destruct (NewMetadataResponse_Some _ _ _ Hdec) as (rl & Hrl' & Hcases).
  rewrite Hrl in Hrl'. injection Hrl' as <-.
  destruct Hcases as [(Hne & _) | (_ & Hrun)]; [done |].
  destruct Hrun as (cid & bc & brokers & o & tc & wire & o' &
                    _ & Hbc & Hbrokers & Htc & Htopics & ->).
  destruct (decodeTopicMetadatas_err _ _ _ _ _ _ _ Htopics) as [Hwire Hany].
  exists (mkMetadataResponse cid brokers (sortTopicMetadatas wire)),
    bc, o, tc, wire, o'.
  cbn [Brokers TopicMetadatas]. repeat split; try done.
  - by eapply decodeBrokers_length.
  - by rewrite length_sortTopicMetadatas.
  - rewrite (Hany None) in Htopics. injection Htopics as <-.
    apply trackErrors_None.
Qed.

(** *** The order of the response *)

(** C2, amended: the topics of a returned response are in ascending
    order of their names and the partitions of each topic in ascending
    order of their ids; the order is strict where the names, or the
    ids within the topic, are pairwise distinct. *)
Theorem NewMetadataResponse_sorted payload resp err :
  NewMetadataResponse payload = Some (Some resp, err) →
  StronglySorted (λ a b, String.leb (TopicName a) (TopicName b) = true)
    (TopicMetadatas resp) ∧
  (NoDup (TopicName <$> TopicMetadatas resp) →
   StronglySorted (λ a b, String.ltb (TopicName a) (TopicName b) = true)
     (TopicMetadatas resp)) ∧
  Forall (λ t,
      StronglySorted (λ p q, PartitionID p ≤ PartitionID q)
        (PartitionMetadatas t) ∧
      (NoDup (PartitionID <$> PartitionMetadatas t) →
       StronglySorted (λ p q, PartitionID p < PartitionID q)
         (PartitionMetadatas t)))
    (TopicMetadatas resp).
Proof.
  intros Hdec.
  destruct (NewMetadataResponse_Some _ _ _ Hdec) as (rl & _ & Hcases).
  destruct Hcases as [(_ & Hnone & _) | (_ & Hrun)]; [done |].
  destruct Hrun as (cid & bc & brokers & o & tc & wire & o' &
                    _ & _ & _ & _ & _ & Hresp).
  injection Hresp as ->. cbn [TopicMetadatas].
  assert (Hnames :
    StronglySorted (λ a b, String.leb (TopicName a) (TopicName b) = true)
      (sortTopicMetadatas wire)).
  { unfold sortTopicMetadatas.
    apply (StronglySorted_fmap sortPartitions (inOrder lessTopicName)).
    - intros x y Hxy. cbn [sortPartitions TopicName].
      by apply string_leb_ltb.
    - apply sort_Slice_StronglySorted, lessTopicName_ordering. }
  split; [exact Hnames |]. split.
  - intros Hnd.
    apply (StronglySorted_NoDup_strict TopicName
             (λ a b, String.leb a b = true)
             (λ a b, String.ltb a b = true)); [| done | done].
    intros a b. apply string_leb_neq_ltb.
  - unfold sortTopicMetadatas. apply Forall_fmap, Forall_forall.
    intros t _. cbn [sortPartitions PartitionMetadatas compose].
    assert (Hids :
      StronglySorted (λ p q, PartitionID p ≤ PartitionID q)
        (sort_Slice lessPartitionID (PartitionMetadatas t))).
    { apply (StronglySorted_impl (inOrder lessPartitionID)).
      - intros p q. unfold inOrder, lessPartitionID. rewrite Z.ltb_ge. lia.
      - apply sort_Slice_StronglySorted, lessPartitionID_ordering. }
    split; [exact Hids |]. intros Hnd.
    apply (StronglySorted_NoDup_strict PartitionID Z.le Z.lt); [| done | done].
    intros a b. lia.
Qed.

End Decoder.

(** *** The test vectors *)

#[local] Existing Instance tableRegistry.
#[local] Existing Instance mergeSorter.

(** Partitions 2, 0, 1 on the wire come out as 0, 1, 2; partition 1 keeps
    its leader -1, and no error is returned. *)
Example NewMetadataResponse_orders :
  NewMetadataResponse Vectors.metadataOrders =
    Some (Some Vectors.metadataOrdersResponse, None).
Proof. vm_compute. reflexivity. Qed.

(** Topics "b", "a" on the wire come out as "a", "b". *)
Example NewMetadataResponse_two_topics :
  ∃ resp,
    NewMetadataResponse Vectors.metadataTwoTopics = Some (Some resp, None) ∧
    TopicName <$> TopicMetadatas resp = ["a"; "b"]%string.
Proof. eexists. split; vm_compute; reflexivity. Qed.

Lemma NewMetadataResponse_length_mismatch_witness :
  NewMetadataResponse Vectors.metadataBadLength =
    Some (None, Some (lengthDidNotMatch (9 + 4) 12)).
Proof.
  apply (NewMetadataResponse_length_mismatch Vectors.metadataBadLength 9).
  - vm_compute. reflexivity.
  - vm_compute. discriminate.
Defined.

(** C1, as stated, fails: in [metadataBenignThenError] the first
    non-zero code, 9, is the benign one, and the response still comes
    with the error of the code 3 that follows it. *)
Lemma NewMetadataResponse_benign_then_error :
  ∃ resp,
    NewMetadataResponse Vectors.metadataBenignThenError =
      Some (Some resp, Some (registryError 3%nat)) ∧
    errorCodes (TopicMetadatas resp) = [9; 3] ∧
    firstNonZeroError (errorCodes (TopicMetadatas resp)) = None.
Proof. eexists. repeat split; vm_compute; reflexivity. Qed.

Lemma NewMetadataResponse_first_reported_error_witness :
  ∃ resp brokersCount topicsOffset topicMetadatasCount wire offset',
    Some Vectors.metadataBenignThenErrorResponse = Some resp ∧
    readUint32 Vectors.metadataBenignThenError 8 = Some brokersCount ∧
    length (Brokers resp) = Z.to_nat brokersCount ∧
    readUint32 Vectors.metadataBenignThenError topicsOffset =
      Some topicMetadatasCount ∧
    (∀ err0,
       decodeTopicMetadatas Vectors.metadataBenignThenError
         (Z.to_nat topicMetadatasCount) (topicsOffset + 4) err0 =
       Some (wire, offset', fold_left trackError (errorCodes wire) err0)) ∧
    TopicMetadatas resp = sortTopicMetadatas wire ∧
    length (TopicMetadatas resp) = Z.to_nat topicMetadatasCount ∧
    Some (registryError 3%nat) = firstReportedError (errorCodes wire).
Proof.
  apply (NewMetadataResponse_first_reported_error
           Vectors.metadataBenignThenError 43).
  - vm_compute. reflexivity.
  - vm_compute. reflexivity.
  - vm_compute. reflexivity.
Defined.

(** C2, as stated, fails: [metadataSameName] frames correctly and is
    decoded without an error, and its two topics, of one name, cannot
    stand in strictly ascending order. *)
Lemma NewMetadataResponse_same_name_not_strict :
  ∃ resp,
    NewMetadataResponse Vectors.metadataSameName = Some (Some resp, None) ∧
    ¬ Sorted (λ a b, String.ltb (TopicName a) (TopicName b) = true)
        (TopicMetadatas resp).
Proof.
  eexists. split; [vm_compute; reflexivity |].
  intros Hs. inversion Hs as [| a l _ Hhd]; subst.
  inversion Hhd as [| b l' Hlt]; subst.
  vm_compute in Hlt. discriminate Hlt.
Qed.

Lemma NewMetadataResponse_sorted_witness :
  StronglySorted (λ a b, String.leb (TopicName a) (TopicName b) = true)
    (TopicMetadatas Vectors.metadataOrdersResponse) ∧
  (NoDup (TopicName <$> TopicMetadatas Vectors.metadataOrdersResponse) →
   StronglySorted (λ a b, String.ltb (TopicName a) (TopicName b) = true)
     (TopicMetadatas Vectors.metadataOrdersResponse)) ∧
  Forall (λ t,
      StronglySorted (λ p q, PartitionID p ≤ PartitionID q)
        (PartitionMetadatas t) ∧
      (NoDup (PartitionID <$> PartitionMetadatas t) →
       StronglySorted (λ p q, PartitionID p < PartitionID q)
         (PartitionMetadatas t)))
    (TopicMetadatas Vectors.metadataOrdersResponse).
Proof.
  apply (NewMetadataResponse_sorted Vectors.metadataOrders
           Vectors.metadataOrdersResponse None).
  vm_compute. reflexivity.
Defined.

End MetadataFacts.

(** ** The configuration *)

Module ConfigFacts.
Import Config.


Lemma assignIndex_Some x i v :
  (i < length x)%nat → assignIndex x i v = Some (<[i := v]> x).
Proof. intros Hi. unfold assignIndex. by destruct (decide _). Qed.

Section Consumer.
Context `{APIKeys}.

(** The derivation of lines 79-87 and 104-112 on a nil vector. *)
Lemma deriveTimeoutMSForEachAPI_nil c :
  TimeoutMSForEachAPI c = None → keysInRange → keysDistinct →
  ∃ v,
    deriveTimeoutMSForEachAPI c = Some (setTimeoutMSForEachAPI c (Some v)) ∧
    length v = 38%nat ∧
    v !! API_JoinGroup = Some (wrapInt (SessionTimeoutMS c + 5000)) ∧
    v !! API_OffsetCommitRequest = Some (SessionTimeoutMS c ÷ 2) ∧
    v !! API_FetchRequest = Some (wrapInt (TimeoutMS c + FetchMaxWaitMS c)) ∧
    ∀ i, (i < 38)%nat →
         i ≠ API_JoinGroup → i ≠ API_OffsetCommitRequest →
         i ≠ API_FetchRequest →
         v !! i = Some (TimeoutMS c).
Proof.
  intros Hnil (Hj & Ho & Hf) (Hjo & Hjf & Hof).
  unfold deriveTimeoutMSForEachAPI. rewrite Hnil.
  rewrite assignIndex_Some by (rewrite length_replicate; lia).
  cbn [mbind option_bind].
  rewrite assignIndex_Some
    by (rewrite length_insert, length_replicate; lia).
  cbn [mbind option_bind].
  rewrite assignIndex_Some
    by (rewrite !length_insert, length_replicate; lia).
  cbn [mbind option_bind].
  eexists. split; [reflexivity |].
  split; [by rewrite !length_insert, length_replicate |].
  split; [| split; [| split]].
  - rewrite list_lookup_insert_ne by done.
    rewrite list_lookup_insert_ne by done.
    apply list_lookup_insert_eq. rewrite length_replicate. lia.
  - rewrite list_lookup_insert_ne by done.
    apply list_lookup_insert_eq. rewrite length_insert, length_replicate. lia.
  - apply list_lookup_insert_eq.
    rewrite !length_insert, length_replicate. lia.
  - intros i Hi Hij Hio Hif.
    rewrite !list_lookup_insert_ne by done.
    by apply lookup_replicate_2.
Qed.

(** C8: the default consumer configuration carries a vector of exactly
    38 per-API timeouts: the entry of join-group is the session timeout
    plus 5000, that of offset-commit the session timeout divided by
    two, that of fetch the timeout plus the maximal fetch wait, and
    every other entry the timeout. *)
Theorem DefaultConsumerConfig_TimeoutMSForEachAPI :
  keysInRange → keysDistinct →
  ∃ c v,
    DefaultConsumerConfig = Some c ∧
    TimeoutMSForEachAPI c = Some v ∧
    length v = 38%nat ∧
    v !! API_JoinGroup = Some (SessionTimeoutMS c + 5000) ∧
    v !! API_OffsetCommitRequest = Some (SessionTimeoutMS c ÷ 2) ∧
    v !! API_FetchRequest = Some (TimeoutMS c + FetchMaxWaitMS c) ∧
    ∀ i, (i < 38)%nat →
         i ≠ API_JoinGroup → i ≠ API_OffsetCommitRequest →
         i ≠ API_FetchRequest →
         v !! i = Some (TimeoutMS c).
Proof.
  intros Hrange Hdistinct. unfold DefaultConsumerConfig.
  edestruct (deriveTimeoutMSForEachAPI_nil) as (v & -> & Hv);
    [| exact Hrange | exact Hdistinct |]; [reflexivity |].
  eexists _, v. split; [reflexivity |]. split; [reflexivity |].
  exact Hv.
Qed.

(** *** GetConsumerConfig *)

(** What [json.Unmarshal] leaves in the vector and in the three fields
    the derivation reads. *)
Lemma unmarshalConsumerConfig_fields config c c' :
  unmarshalConsumerConfig config c = inr c' →
  intoInts "timeout.ms.for.eachapi" (config !! "timeout.ms.for.eachapi")
    (TimeoutMSForEachAPI c) = inr (TimeoutMSForEachAPI c') ∧
  intoInt 64 "timeout.ms" (config !! "timeout.ms") (TimeoutMS c)
    = inr (TimeoutMS c') ∧
  intoInt 32 "session.timeout.ms" (config !! "session.timeout.ms")
    (SessionTimeoutMS c) = inr (SessionTimeoutMS c') ∧
  intoInt 32 "fetch.max.wait.ms" (config !! "fetch.max.wait.ms")
    (FetchMaxWaitMS c) = inr (FetchMaxWaitMS c').
Proof.
  unfold unmarshalConsumerConfig. intros Hun.
  repeat match type of Hun with
         | bindE ?m _ = inr _ =>
             destruct m eqn:?; cbn [bindE] in Hun; [discriminate Hun |]
         end.
  injection Hun as <-. cbn. done.
Qed.



End Consumer.

#[local] Existing Instance kafkaAPIKeys.

Lemma DefaultConsumerConfig_TimeoutMSForEachAPI_witness :
  ∃ c v,
    DefaultConsumerConfig = Some c ∧
    TimeoutMSForEachAPI c = Some v ∧
    length v = 38%nat ∧
    v !! 11%nat = Some (SessionTimeoutMS c + 5000) ∧
    v !! 8%nat = Some (SessionTimeoutMS c ÷ 2) ∧
    v !! 1%nat = Some (TimeoutMS c + FetchMaxWaitMS c) ∧
    ∀ i, (i < 38)%nat → i ≠ 11%nat → i ≠ 8%nat → i ≠ 1%nat →
         v !! i = Some (TimeoutMS c).
Proof.
  apply (@DefaultConsumerConfig_TimeoutMSForEachAPI kafkaAPIKeys).
  - unfold keysInRange. simpl. lia.
  - unfold keysDistinct. simpl. lia.
Defined.

(** C10 against the code: the mapping [timeoutOnly] has no entry for the
    vector and overrides the timeout to 1000; the configuration returned
    carries the timeout 1000 and the vector of the default configuration,
    derived from the default timeout 30000, not one derived from 1000. *)
Theorem GetConsumerConfig_absent_key_default_vector :
  timeoutOnly !! "timeout.ms.for.eachapi" = None ∧
  ∃ c,
    GetConsumerConfig timeoutOnly = Some (Some c, None) ∧
    TimeoutMS c = 1000 ∧
    TimeoutMSForEachAPI c = Some defaultTimeouts ∧
    defaultTimeouts !! 0%nat = Some 30000 ∧
    defaultTimeouts !! API_FetchRequest = Some 30100.
Proof.
  split; [vm_compute; reflexivity |].
  eexists. repeat split; vm_compute; reflexivity.
Qed.

(** *** ProducerConfig.checkValid *)

Import Producer.

(** C9: with the servers set and positive message count and flush
    interval, [checkValid] succeeds exactly for the compression types
    none, gzip, snappy and lz4, and gives the unknown-compression-type
    error for any other string. *)
Theorem checkValid_CompressionType (config : ProducerConfig) :
  BootstrapServers config ≠ "" →
  MessageMaxCount config > 0 →
  FlushIntervalMS config > 0 →
  (checkValid config = None ↔
   CompressionType config ∈ ["none"; "gzip"; "snappy"; "lz4"]) ∧
  (CompressionType config ∉ ["none"; "gzip"; "snappy"; "lz4"] →
   checkValid config = Some unknownCompressionType).
Proof.
  intros Hservers Hcount Hflush. unfold checkValid.
  destruct (decide (BootstrapServers config = "")); [done |].
  destruct (decide (MessageMaxCount config ≤ 0)); [lia |].
  destruct (decide (FlushIntervalMS config ≤ 0)); [lia |].
  rewrite !elem_of_cons, elem_of_nil.
  repeat destruct (decide (CompressionType config = _)); intuition congruence.
Qed.

Lemma checkValid_CompressionType_witness :
  (checkValid (withCompression "zstd") = None ↔
   CompressionType (withCompression "zstd") ∈ ["none"; "gzip"; "snappy"; "lz4"]) ∧
  (CompressionType (withCompression "zstd") ∉ ["none"; "gzip"; "snappy"; "lz4"] →
   checkValid (withCompression "zstd") = Some unknownCompressionType).
Proof.
  apply (checkValid_CompressionType (withCompression "zstd")).
  - discriminate.
  - reflexivity.
  - reflexivity.
Defined.

End ConfigFacts.

(** ** More on the fetch response *)

Module FetchMore.
Import Binary FetchResponse BinaryFacts FetchFacts.

(** One step through a run of reads: the read at the head succeeded. *)
Ltac read_step H :=
  lazymatch type of H with
  | (?m ≫= _) = Some _ =>
      let E := fresh "Hread" in
      destruct m eqn:E; cbn [mbind option_bind] in H; [| discriminate H]
  | (if decide ?P then _ else _) = Some _ =>
      destruct (decide P); [try discriminate H |]
  end;
  repeat match goal with p : (_ * _)%type |- _ => destruct p end.

(** The same, naming the equation of the read. *)
Ltac read_as H E :=
  lazymatch type of H with
  | (?m ≫= _) = Some _ =>
      destruct m eqn:E; cbn [mbind option_bind] in H; [| discriminate H]
  end;
  repeat match goal with p : (_ * _)%type |- _ => destruct p end.

Lemma len_le_cap payload : (len payload ≤ cap payload)%nat.
Proof. unfold len, cap. rewrite length_app. lia. Qed.

Lemma readUint16_le payload off z :
  readUint16 payload off = Some z → (off + 2 ≤ len payload)%nat.
Proof.
  unfold readUint16, Uint16. intros H. read_step H.
  apply sliceFrom_Some in Hread as [? ->].
  apply beUint_Some in H as [Hl _]. rewrite length_drop in Hl.
  unfold len in *. lia.
Qed.

Lemma readUint32_le payload off z :
  readUint32 payload off = Some z → (off + 4 ≤ len payload)%nat.
Proof. intros H. by apply readUint32_Some in H as [? _]. Qed.

Lemma readUint64_le payload off z :
  readUint64 payload off = Some z → (off + 8 ≤ len payload)%nat.
Proof.
  unfold readUint64, Uint64. intros H. read_step H.
  apply sliceFrom_Some in Hread as [? ->].
  apply beUint_Some in H as [Hl _]. rewrite length_drop in Hl.
  unfold len in *. lia.
Qed.

Lemma index_lt payload off b :
  index payload off = Some b → (off < len payload)%nat.
Proof. unfold index, len. apply lookup_lt_Some. Qed.

(** *** The bytes a record takes *)

Lemma decodeBytes_size payload offset field offset' :
  decodeBytes payload offset = Some (field, offset') →
  offset' = (offset + 4 + fieldSize field)%nat ∧ (offset' ≤ cap payload)%nat.
Proof.
  unfold decodeBytes. intros H. read_step H.
  apply readUint32_le in Hread. pose proof (len_le_cap payload).
  read_step H.
  - injection H as <- <-. simpl. lia.
  - read_step H. read_step H. injection H as <- <-.
    pose proof (sliceRange_length _ _ _ _ Hread0) as Hl.
    apply sliceRange_Some in Hread0 as [[? ?] _].
    simpl. lia.
Qed.

(** X1: A message record takes 26 bytes and those of its key and value; the
    cursor behind it is within the capacity of the buffer. *)
Theorem decodeMessage_size payload offset m offset' :
  decodeMessage payload offset = Some (m, offset') →
  offset' = (offset + recordSize m)%nat ∧ (offset' ≤ cap payload)%nat.
Proof.
  intros H.
  destruct (decodeMessage_Key_Value _ _ _ _ H) as (vo & Hk & Hv).
  apply decodeBytes_size in Hk as [-> _].
  apply decodeBytes_size in Hv as [-> Hcap].
  unfold recordSize. split; lia.
Qed.

Lemma decodeMessage_size_witness :
  57%nat =
    (29 + recordSize (mkMessage 5 0 0 0 0 None (Some (Vectors.str "ab"))))%nat ∧
  (57 ≤ cap Vectors.fetchShort)%nat.
Proof.
  apply (decodeMessage_size Vectors.fetchShort 29).
  vm_compute. reflexivity.
Defined.

(** *** The message loop against the size of the buffer *)

Lemma Records_size payload offset ms offset' :
  Records payload offset ms offset' →
  offset' = (offset + sum_list_with recordSize ms)%nat ∧
  (ms ≠ [] → (offset' ≤ cap payload)%nat).
Proof.
  induction 1 as [offset | offset m offset1 ms offset' Hm _ Hrec [IH1 IH2]].
  - simpl. split; [lia | done].
  - apply decodeMessage_size in Hm as [Hm Hcap]. cbn [sum_list_with].
    split; [lia |].
    intros _. destruct ms as [| m' ms]; [| by apply IH2].
    inversion Hrec; subst. lia.
Qed.

Lemma sum_recordSize_ge ms : (26 * length ms ≤ sum_list_with recordSize ms)%nat.
Proof.
  induction ms as [| m ms IH]; cbn [sum_list_with length]; [lia |].
  unfold recordSize at 1. lia.
Qed.

(** X2: However large the announced count, the message loop moves the cursor
    by the sizes of the records it stores, at least 26 bytes each, and not
    beyond the capacity of the buffer: it stores no more records than
    fit. *)
Theorem decodeMessages_within_buffer payload n offset ms offset' :
  decodeMessages payload n offset = Some (ms, offset') →
  offset' = (offset + sum_list_with recordSize ms)%nat ∧
  (length ms ≤ n)%nat ∧
  (ms ≠ [] → (offset + 26 * length ms ≤ cap payload)%nat).
Proof.
  intros H. apply decodeMessages_Records in H as [Hrec Hlen].
  destruct (Records_size _ _ _ _ Hrec) as [-> Hcap].
  split; [done |]. split.
  - destruct Hlen as [-> | (_ & ? & _)]; lia.
  - intros Hne. specialize (Hcap Hne).
    pose proof (sum_recordSize_ge ms). lia.
Qed.

Lemma decodeMessages_within_buffer_witness :
  len Vectors.fetchShort =
    (29 + sum_list_with recordSize Vectors.fetchShortStored)%nat ∧
  (length Vectors.fetchShortStored ≤ 3)%nat ∧
  (Vectors.fetchShortStored ≠ [] →
   (29 + 26 * length Vectors.fetchShortStored ≤ cap Vectors.fetchShort)%nat).
Proof.
  apply (decodeMessages_within_buffer Vectors.fetchShort 3 29).
  vm_compute. reflexivity.
Defined.

(** *** After the end of the buffer *)

(** X3: A partition whose records end where the buffer ends has to be the last
    one announced: with another partition to read after it, the decoder
    panics on the read of its id. *)
Theorem decodeTopicDatas_after_end_panics payload n offset d :
  decodeTopicData payload offset = Some (d, len payload) →
  decodeTopicDatas payload (S (S n)) offset = None.
Proof.
  intros Hd. cbn [decodeTopicDatas]. rewrite Hd. cbn [mbind option_bind].
  assert (Hnext : decodeTopicData payload (len payload) = None).
  { unfold decodeTopicData.
    destruct (readUint32 payload (len payload)) as [z |] eqn:Hz; [| done].
    apply readUint32_le in Hz. lia. }
  by rewrite Hnext.
Qed.

Lemma decodeTopicDatas_after_end_panics_witness :
  decodeTopicDatas Vectors.fetchEndsEarly 2 11 = None.
Proof.
  apply (decodeTopicDatas_after_end_panics Vectors.fetchEndsEarly 0 11
           (mkTopicData 0 0 77 1
              [mkMessage 5 0 0 0 0 None (Some (Vectors.str "ab"))])).
  vm_compute. reflexivity.
Defined.

(** X20: a buffer of fewer than four bytes has no topic count: the decoder
    panics on it, the empty buffer included. *)
Theorem DecodeFetchResponse_short_panics payload :
  (len payload < 4)%nat → DecodeFetchResponse payload = None.
Proof.
  intros Hlen. unfold DecodeFetchResponse.
  destruct (readUint32 payload 0) as [z |] eqn:Hz; [| done].
  apply readUint32_le in Hz. lia.
Qed.

Lemma DecodeFetchResponse_short_panics_witness :
  DecodeFetchResponse (ofBytes []) = None.
Proof.
  apply (DecodeFetchResponse_short_panics (ofBytes [])).
  vm_compute. lia.
Defined.

(** *** Negative lengths *)

(** X4: A negative message-set size is no count: [make] panics on it. *)
Theorem decodeTopicData_negative_size_panics payload offset sz :
  readUint32 payload (offset + 14) = Some sz →
  int32 sz < 0 →
  decodeTopicData payload offset = None.
Proof.
  intros Hsz Hneg. unfold decodeTopicData.
  destruct (readUint32 payload offset); cbn [mbind option_bind]; [| done].
  destruct (readUint16 payload (offset + 4)); cbn [mbind option_bind]; [| done].
  destruct (readUint64 payload (offset + 4 + 2)); cbn [mbind option_bind]; [| done].
  replace (offset + 4 + 2 + 8)%nat with (offset + 14)%nat by lia.
  rewrite Hsz. cbn [mbind option_bind].
  by destruct (decide (int32 sz < 0)).
Qed.

Lemma decodeTopicData_negative_size_panics_witness :
  decodeTopicData Vectors.fetchNegativeSize 11 = None.
Proof.
  apply (decodeTopicData_negative_size_panics Vectors.fetchNegativeSize 11
           (2 ^ 32 - 2)).
  - vm_compute. reflexivity.
  - vm_compute. reflexivity.
Defined.

(** X5: A key length below -1 is neither "absent" nor a length: the message
    is not decoded, [make] panics. *)
Theorem decodeMessage_negative_key_panics payload offset u :
  readUint32 payload (offset + 18) = Some u →
  int32 u < -1 →
  decodeMessage payload offset = None.
Proof.
  intros Hu Hneg.
  destruct (decodeMessage payload offset) as [[m o] |] eqn:Hm; [| done].
  destruct (decodeMessage_Key_Value _ _ _ _ Hm) as (vo & Hk & _).
  unfold decodeBytes in Hk. rewrite Hu in Hk. cbn [mbind option_bind] in Hk.
  destruct (decide (int32 u = -1)); [lia |].
  destruct (decide (int32 u < 0)); [done | lia].
Qed.

Lemma decodeMessage_negative_key_panics_witness :
  decodeMessage Vectors.fetchNegativeKey 29 = None.
Proof.
  apply (decodeMessage_negative_key_panics Vectors.fetchNegativeKey 29
           (2 ^ 32 - 2)).
  - vm_compute. reflexivity.
  - vm_compute. reflexivity.
Defined.

(** *** The response against the size of the buffer *)

Lemma decodeTopicData_advance payload offset d offset' :
  decodeTopicData payload offset = Some (d, offset') →
  (offset + 18 ≤ offset')%nat ∧ (offset' ≤ cap payload)%nat.
Proof.
  intros H.
  destruct (decodeTopicData_fields _ _ _ _ H)
    as (part & ec & hw & sz & stored & _ & _ & _ & Hsz & _ & Hms & _).
  apply readUint32_le in Hsz. pose proof (len_le_cap payload).
  apply decodeMessages_Records in Hms as [Hrec _].
  destruct (Records_size _ _ _ _ Hrec) as [-> Hcap].
  split; [lia |].
  destruct stored as [| m ms]; [simpl; lia | by apply Hcap].
Qed.

Lemma decodeTopicDatas_advance payload n offset ds offset' :
  decodeTopicDatas payload n offset = Some (ds, offset') →
  length ds = n ∧
  (offset + 18 * n ≤ offset')%nat ∧
  ((offset ≤ cap payload)%nat → (offset' ≤ cap payload)%nat).
Proof.
  revert offset ds offset'.
  induction n as [| n IH]; intros offset ds offset' H; cbn [decodeTopicDatas] in H.
  - injection H as <- <-. repeat split; [lia | done].
  - read_step H. read_step H. injection H as <- <-.
    apply decodeTopicData_advance in Hread as [? ?].
    apply IH in Hread0 as (<- & ? & Hcap).
    repeat split; [lia |]. intros _. apply Hcap. lia.
Qed.

Lemma length_goString b : String.length (goString b) = length b.
Proof.
  unfold goString, string_of_list_byte.
  induction b as [| x b IH]; simpl; [done | by rewrite IH].
Qed.

Lemma decodeTopic_advance payload offset t offset' :
  decodeTopic payload offset = Some (t, offset') →
  (offset + 6 + String.length (TopicName t) + 18 * length (TopicDatas t)
     ≤ offset')%nat ∧
  (offset' ≤ cap payload)%nat.
Proof.
  unfold decodeTopic. intros H. do 4 read_step H. injection H as <- <-.
  cbn [TopicName TopicDatas]. rewrite length_goString.
  pose proof (sliceRange_length _ _ _ _ Hread0) as Hl.
  apply readUint32_le in Hread1. pose proof (len_le_cap payload).
  apply decodeTopicDatas_advance in Hread2 as (-> & ? & Hcap).
  split; [lia |]. apply Hcap. lia.
Qed.

Lemma decodeTopics_advance payload n offset ts offset' :
  decodeTopics payload n offset = Some (ts, offset') →
  length ts = n ∧
  (offset + sum_list_with topicFloor ts ≤ offset')%nat ∧
  ((offset ≤ cap payload)%nat → (offset' ≤ cap payload)%nat).
Proof.
  revert offset ts offset'.
  induction n as [| n IH]; intros offset ts offset' H; cbn [decodeTopics] in H.
  - injection H as <- <-. cbn [sum_list_with length]. repeat split; [lia | done].
  - read_step H. read_step H. injection H as <- <-.
    apply decodeTopic_advance in Hread as [? ?].
    apply IH in Hread0 as (<- & ? & Hcap).
    cbn [sum_list_with length]. unfold topicFloor at 1.
    repeat split; [lia |]. intros _. by apply Hcap.
Qed.

(** X6: A decoded response has as many topics as the count at the head of the
    buffer announces, and it fits the buffer: four bytes of count, and for
    each topic six bytes, its name and eighteen bytes per partition, are
    within the capacity. *)
Theorem DecodeFetchResponse_fits_buffer payload r e :
  DecodeFetchResponse payload = Some (r, e) →
  ∃ topicDataCount,
    readUint32 payload 0 = Some topicDataCount ∧
    length r = Z.to_nat topicDataCount ∧
    (4 + sum_list_with topicFloor r ≤ cap payload)%nat.
Proof.
  unfold DecodeFetchResponse. intros H. read_step H. read_step H.
  injection H as <- <-.
  pose proof (readUint32_le _ _ _ Hread) as Hle.
  pose proof (len_le_cap payload).
  apply decodeTopics_advance in Hread0 as (Hlen & Hsum & Hcap).
  exists z. split; [done |]. split; [done |].
  specialize (Hcap ltac:(lia)). lia.
Qed.

Lemma DecodeFetchResponse_fits_buffer_witness :
  ∃ topicDataCount,
    readUint32 Vectors.fetchShort 0 = Some topicDataCount ∧
    length [Vectors.fetchShortTopic] = Z.to_nat topicDataCount ∧
    (4 + sum_list_with topicFloor [Vectors.fetchShortTopic]
       ≤ cap Vectors.fetchShort)%nat.
Proof.
  apply (DecodeFetchResponse_fits_buffer Vectors.fetchShort
           [Vectors.fetchShortTopic] None).
  vm_compute. reflexivity.
Defined.

End FetchMore.

(** ** The ranges of the decoded integers *)

Module Ranges.
Import Binary FetchResponse BinaryFacts FetchFacts FetchMore.

Lemma byteVal_range b : 0 ≤ byteVal b < 256.
Proof.
  unfold byteVal. pose proof (Byte.to_N_bounded b) as Hb.
  apply N2Z.inj_le in Hb. change (Z.of_N 255) with 255 in Hb. lia.
Qed.

Lemma beValue_range bs : 0 ≤ beValue bs < 256 ^ Z.of_nat (length bs).
Proof.
  unfold beValue.
  assert (Hgen : ∀ acc, 0 ≤ acc →
            0 ≤ fold_left (λ acc b, acc * 256 + byteVal b) bs acc
              < (acc + 1) * 256 ^ Z.of_nat (length bs)).
  { induction bs as [| b bs IH]; intros acc Hacc.
    - simpl. lia.
    - pose proof (byteVal_range b) as Hb.
      cbn [fold_left length].
      specialize (IH (acc * 256 + byteVal b) ltac:(lia)).
      rewrite Nat2Z.inj_succ, Z.pow_succ_r by lia.
      assert (0 < 256 ^ Z.of_nat (length bs)) by (apply Z.pow_pos_nonneg; lia).
      nia. }
  specialize (Hgen 0 ltac:(lia)). lia.
Qed.

Lemma beUint_range w b z :
  beUint w b = Some z → 0 ≤ z < 256 ^ Z.of_nat w.
Proof.
  intros H. apply beUint_Some in H as [Hw ->].
  pose proof (beValue_range (take w b)) as Hr.
  rewrite length_take in Hr. by replace (w `min` length b)%nat with w in Hr by lia.
Qed.

Lemma readUint16_range p off z : readUint16 p off = Some z → inUnsigned 16 z.
Proof.
  unfold readUint16, Uint16. intros H. read_step H.
  by apply beUint_range in H.
Qed.

Lemma readUint32_range p off z : readUint32 p off = Some z → inUnsigned 32 z.
Proof.
  unfold readUint32, Uint32. intros H. read_step H.
  by apply beUint_range in H.
Qed.

Lemma readUint64_range p off z : readUint64 p off = Some z → inUnsigned 64 z.
Proof.
  unfold readUint64, Uint64. intros H. read_step H.
  by apply beUint_range in H.
Qed.

Lemma toSigned_range bits u :
  0 < bits → inUnsigned bits u → inSigned bits (toSigned bits u).
Proof.
  unfold inUnsigned, inSigned, toSigned. intros Hb Hu.
  replace (2 ^ bits) with (2 * 2 ^ (bits - 1)) in *
    by (rewrite <- Z.pow_succ_r by lia; f_equal; lia).
  destruct (decide _); lia.
Qed.

Lemma decodeMessage_range payload offset m offset' :
  decodeMessage payload offset = Some (m, offset') → messageInRange m.
Proof.
  unfold decodeMessage. intros H. do 7 read_step H. injection H as <- _.
  unfold messageInRange. cbn.
  apply readUint64_range in Hread. apply readUint32_range in Hread0.
  apply readUint32_range in Hread1.
  pose proof (byteVal_range b). pose proof (byteVal_range b0).
  assert (Hbyte : ∀ x, 0 ≤ x < 256 → inSigned 8 (int8 x)).
  { intros x Hx. apply toSigned_range; [lia |]. unfold inUnsigned.
    change (2 ^ 8) with 256. lia. }
  split; [apply toSigned_range; [lia | done] |].
  split; [apply toSigned_range; [lia | done] |].
  split; [done |]. split; by apply Hbyte.
Qed.

Lemma Records_range payload offset ms offset' :
  Records payload offset ms offset' → Forall messageInRange ms.
Proof.
  induction 1 as [| offset m offset1 ms offset' Hm _ _ IH]; constructor; [| done].
  by eapply decodeMessage_range.
Qed.

(** X7: The integers of a decoded partition are values of the types the
    fields have: the id in [int32], the error code in [int16], the
    high-water mark in [int64], the message-set size in [int32] and not
    negative, and so for every message of the set, those never read
    included. *)
Theorem decodeTopicData_in_range payload offset d offset' :
  decodeTopicData payload offset = Some (d, offset') →
  inSigned 32 (Partition d) ∧ inSigned 16 (ErrorCode d) ∧
  inSigned 64 (HighwaterMarkOffset d) ∧
  0 ≤ MessageSetSize d < 2 ^ 31 ∧
  Forall messageInRange (MessageSet d).
Proof.
  intros H.
  destruct (decodeTopicData_fields _ _ _ _ H)
    as (part & ec & hw & sz & stored & Hpart & Hec & Hhw & Hsz & Hpos & Hms & ->).
  cbn [Partition ErrorCode HighwaterMarkOffset MessageSetSize MessageSet].
  apply readUint32_range in Hpart, Hsz. apply readUint16_range in Hec.
  apply readUint64_range in Hhw.
  split; [apply toSigned_range; [lia | done] |].
  split; [apply toSigned_range; [lia | done] |].
  split; [apply toSigned_range; [lia | done] |].
  split.
  - pose proof (toSigned_range 32 sz ltac:(lia) Hsz) as Hr.
    unfold inSigned in Hr. change (32 - 1) with 31 in Hr. unfold int32 in *. lia.
  - unfold fillMessageSet. apply Forall_app. split.
    + apply decodeMessages_Records in Hms as [Hrec _]. by eapply Records_range.
    + apply Forall_replicate. unfold messageInRange, inSigned, inUnsigned.
      cbn. lia.
Qed.

Lemma decodeTopicData_in_range_witness :
  inSigned 32 (Partition Vectors.fetchShortPartition) ∧
  inSigned 16 (ErrorCode Vectors.fetchShortPartition) ∧
  inSigned 64 (HighwaterMarkOffset Vectors.fetchShortPartition) ∧
  0 ≤ MessageSetSize Vectors.fetchShortPartition < 2 ^ 31 ∧
  Forall messageInRange (MessageSet Vectors.fetchShortPartition).
Proof.
  apply (decodeTopicData_in_range Vectors.fetchShort 11 _ (len Vectors.fetchShort)).
  vm_compute. reflexivity.
Defined.

End Ranges.

(** ** More on the topology response *)

Module MetadataMore.
Import Binary Sort Metadata BinaryFacts SortFacts MetadataFacts FetchMore.

Section Decoder.
Context `{ErrorRegistry} `{SliceSorter}.

(** *** The codes of the response *)

Lemma errorCodes_Permutation (l l' : list TopicMetadata) :
  l ≡ₚ l' → errorCodes l ≡ₚ errorCodes l'.
Proof. unfold errorCodes. by intros ->. Qed.

Lemma errorCodes_sortPartitions (l : list TopicMetadata) :
  errorCodes (sortPartitions <$> l) ≡ₚ errorCodes l.
Proof.
  induction l as [| t l IH]; [done |].
  rewrite fmap_cons, (errorCodes_cons t l), (errorCodes_cons (sortPartitions t)).
  apply Permutation_app; [| exact IH].
  unfold errorCodes. cbn. rewrite !app_nil_r. constructor.
  apply fmap_Permutation, sort_Slice_Permutation.
Qed.

Lemma errorCodes_sortTopicMetadatas (wire : list TopicMetadata) :
  errorCodes (sortTopicMetadatas wire) ≡ₚ errorCodes wire.
Proof.
  unfold sortTopicMetadatas. rewrite errorCodes_sortPartitions.
  apply errorCodes_Permutation, sort_Slice_Permutation.
Qed.

Lemma firstReportedError_None codes :
  firstReportedError codes = None ↔ Forall (λ c, ¬ reported c) codes.
Proof.
  unfold firstReportedError. induction codes as [| c codes IH].
  - split; [constructor | done].
  - rewrite filter_cons, Forall_cons. destruct (decide (reported c)).
    + split; [done | by intros [? _]].
    + rewrite IH. tauto.
Qed.

Lemma firstReportedError_Some codes e :
  firstReportedError codes = Some e →
  ∃ c, c ∈ codes ∧ reported c ∧ e = registryError (getErrorFromErrorCode c).
Proof.
  unfold firstReportedError.
  destruct (filter reported codes) as [| c l] eqn:Hf; [done |].
  intros [= <-]. exists c.
  assert (Hc : c ∈ filter reported codes) by (rewrite Hf; apply list_elem_of_here).
  apply list_elem_of_filter in Hc as [? ?]. done.
Qed.

(** X8: The error that comes with a response can be read off the response
    itself, whatever order its topics and partitions were sorted into: it
    is nil exactly when every topic- and partition-level code of the
    response is zero or benign, and otherwise it is the registry's error
    for one of the codes of the response that are neither. *)
Theorem NewMetadataResponse_error_of_response payload resp err :
  NewMetadataResponse payload = Some (Some resp, err) →
  (err = None ↔
   Forall (λ c, ¬ reported c) (errorCodes (TopicMetadatas resp))) ∧
  (∀ e, err = Some e →
     ∃ c, c ∈ errorCodes (TopicMetadatas resp) ∧ reported c ∧
          e = registryError (getErrorFromErrorCode c)).
Proof.
  intros Hdec.
  destruct (NewMetadataResponse_Some _ _ _ Hdec) as (rl & _ & Hcases).
  destruct Hcases as [(_ & Hnone & _) | (_ & Hrun)]; [done |].
  destruct Hrun as (cid & bc & brokers & o & tc & wire & o' &
                    _ & _ & _ & _ & Htopics & Hresp).
  injection Hresp as ->. cbn [TopicMetadatas].
  destruct (decodeTopicMetadatas_err _ _ _ _ _ _ _ Htopics) as [_ Hany].
  rewrite (Hany None) in Htopics. injection Htopics as <-.
  rewrite trackErrors_None.
  pose proof (errorCodes_sortTopicMetadatas wire) as Hperm. split.
  - rewrite firstReportedError_None. by rewrite Hperm.
  - intros e He. apply firstReportedError_Some in He as (c & Hc & Hrep & ->).
    exists c. by rewrite Hperm.
Qed.

(** *** Response or length error *)

(** X9: [NewMetadataResponse] returns no response exactly together with the
    length error; an error of the registry always comes with a
    response. *)
Theorem NewMetadataResponse_response_or_length_error payload r err :
  NewMetadataResponse payload = Some (r, err) →
  (r = None ↔ ∃ declared actual, err = Some (lengthDidNotMatch declared actual)) ∧
  (∀ e, err = Some (registryError e) → is_Some r).
Proof.
  intros Hdec.
  destruct (NewMetadataResponse_Some _ _ _ Hdec) as (rl & _ & Hcases).
  destruct Hcases as [(_ & -> & ->) | (_ & Hrun)].
  - split; [| done]. split; [by eauto | done].
  - destruct Hrun as (cid & bc & brokers & o & tc & wire & o' &
                      _ & _ & _ & _ & Htopics & ->).
    split; [| by eauto]. split; [done |]. intros (a & b & ->).
    destruct (decodeTopicMetadatas_err _ _ _ _ _ _ _ Htopics) as [_ Hany].
    rewrite (Hany None) in Htopics. injection Htopics as Hfold.
    rewrite trackErrors_None in Hfold.
    apply firstReportedError_Some in Hfold as (c & _ & _ & Hbad). done.
Qed.

(** *** Nothing lost, nothing invented *)

Lemma sameTopic_sortPartitions t : sameTopic t (sortPartitions t).
Proof.
  unfold sameTopic, sortPartitions. cbn. repeat split.
  symmetry. apply sort_Slice_Permutation.
Qed.

(** X10: The topics of a response are those decoded from the wire: the same
    topics in another order, each with its code, its name and, in another
    order, its partitions. *)
Theorem NewMetadataResponse_topics_of_wire payload resp err :
  NewMetadataResponse payload = Some (Some resp, err) →
  ∃ topicsOffset topicMetadatasCount wire offset' ordered,
    readUint32 payload topicsOffset = Some topicMetadatasCount ∧
    decodeTopicMetadatas payload (Z.to_nat topicMetadatasCount)
      (topicsOffset + 4) None = Some (wire, offset', err) ∧
    ordered ≡ₚ wire ∧
    Forall2 sameTopic ordered (TopicMetadatas resp).
Proof.
  intros Hdec.
  destruct (NewMetadataResponse_Some _ _ _ Hdec) as (rl & _ & Hcases).
  destruct Hcases as [(_ & Hnone & _) | (_ & Hrun)]; [done |].
  destruct Hrun as (cid & bc & brokers & o & tc & wire & o' &
                    _ & _ & _ & Htc & Htopics & Hresp).
  injection Hresp as ->. cbn [TopicMetadatas].
  exists o, tc, wire, o', (sort_Slice lessTopicName wire).
  split; [done |]. split; [done |]. split; [apply sort_Slice_Permutation |].
  unfold sortTopicMetadatas. apply Forall2_fmap_r, Forall_Forall2_diag.
  apply Forall_forall. intros t _. apply sameTopic_sortPartitions.
Qed.

(** *** The response against the length of the buffer *)

Lemma decodeInt32s_size payload n offset vs offset' :
  decodeInt32s payload n offset = Some (vs, offset') →
  length vs = n ∧ offset' = (offset + 4 * n)%nat ∧
  ((0 < n)%nat → (offset' ≤ len payload)%nat).
Proof.
  revert offset vs offset'.
  induction n as [| n IH]; intros offset vs offset' Hdec; cbn [decodeInt32s] in Hdec.
  - injection Hdec as <- <-. repeat split; lia.
  - read_as Hdec Hv. read_as Hdec Hrest. injection Hdec as <- <-.
    apply readUint32_le in Hv. apply IH in Hrest as (<- & -> & Hle).
    cbn [length]. repeat split; [lia |]. intros _.
    match type of Hle with (0 < ?k)%nat → _ =>
      destruct k as [| k']; [lia | apply Hle; lia] end.
Qed.

Lemma decodePartition_size payload offset err p offset' err' :
  decodePartition payload offset err = Some (p, offset', err') →
  offset' = (offset + partitionSize p)%nat ∧ (offset' ≤ len payload)%nat.
Proof.
  unfold decodePartition. intros Hdec.
  read_as Hdec Hec. read_as Hdec Hpid. read_as Hdec Hleader.
  read_as Hdec Hrc. read_as Hdec Hreps. read_as Hdec Hic. read_as Hdec Hisr.
  injection Hdec as <- <- _. unfold partitionSize. cbn [Replicas Isr].
  apply decodeInt32s_size in Hreps as (Hl1 & -> & _).
  apply readUint32_le in Hic.
  apply decodeInt32s_size in Hisr as (Hl2 & -> & Hle).
  rewrite Hl1, Hl2. split; [lia |].
  match type of Hle with (0 < ?k)%nat → _ =>
    destruct k as [| k']; [lia | apply Hle; lia] end.
Qed.

Lemma decodePartitions_size payload n offset err ps offset' err' :
  decodePartitions payload n offset err = Some (ps, offset', err') →
  offset' = (offset + sum_list_with partitionSize ps)%nat ∧
  (ps ≠ [] → (offset' ≤ len payload)%nat).
Proof.
  revert offset err ps offset' err'.
  induction n as [| n IH]; intros offset err ps offset' err' Hdec;
    cbn [decodePartitions] in Hdec.
  - injection Hdec as <- <- _. cbn [sum_list_with]. split; [lia | done].
  - read_as Hdec Hp. read_as Hdec Hrest. injection Hdec as <- <- _.
    apply decodePartition_size in Hp as [-> Hle].
    apply IH in Hrest as [-> Hle'].
    cbn [sum_list_with]. split; [lia |]. intros _.
    match type of Hle' with ?l ≠ [] → _ =>
      destruct l as [| q l']; [cbn [sum_list_with] in *; lia | by apply Hle'] end.
Qed.

Lemma decodeTopicMetadata_size payload offset err t offset' err' :
  decodeTopicMetadata payload offset err = Some (t, offset', err') →
  offset' = (offset + topicSize t)%nat ∧ (offset' ≤ len payload)%nat.
Proof.
  unfold decodeTopicMetadata. intros Hdec.
  read_as Hdec Hec. read_as Hdec Hnl. read_as Hdec Hname.
  read_as Hdec Hpc. read_as Hdec Hps.
  injection Hdec as <- <- _. unfold topicSize.
  cbn [TopicName PartitionMetadatas]. rewrite length_goString.
  pose proof (sliceRange_length _ _ _ _ Hname) as Hl.
  apply readUint32_le in Hpc.
  apply decodePartitions_size in Hps as [-> Hle].
  split; [lia |].
  match goal with |- context [sum_list_with partitionSize ?ps] =>
    destruct ps as [| q ps']; [cbn [sum_list_with]; lia | by apply Hle] end.
Qed.

Lemma decodeTopicMetadatas_size payload n offset err ts offset' err' :
  decodeTopicMetadatas payload n offset err = Some (ts, offset', err') →
  offset' = (offset + sum_list_with topicSize ts)%nat ∧
  (ts ≠ [] → (offset' ≤ len payload)%nat).
Proof.
  revert offset err ts offset' err'.
  induction n as [| n IH]; intros offset err ts offset' err' Hdec;
    cbn [decodeTopicMetadatas] in Hdec.
  - injection Hdec as <- <- _. cbn [sum_list_with]. split; [lia | done].
  - read_as Hdec Ht. read_as Hdec Hrest. injection Hdec as <- <- _.
    apply decodeTopicMetadata_size in Ht as [-> Hle].
    apply IH in Hrest as [-> Hle'].
    cbn [sum_list_with]. split; [lia |]. intros _.
    match type of Hle' with ?l ≠ [] → _ =>
      destruct l as [| q l']; [cbn [sum_list_with] in *; lia | by apply Hle'] end.
Qed.

Lemma decodeBroker_size payload offset b offset' :
  decodeBroker payload offset = Some (b, offset') →
  offset' = (offset + brokerSize b)%nat.
Proof.
  unfold decodeBroker. intros Hdec.
  read_as Hdec Hid. read_as Hdec Hhl. read_as Hdec Hhost. read_as Hdec Hport.
  injection Hdec as <- <-. unfold brokerSize. cbn [Host].
  rewrite length_goString.
  pose proof (sliceRange_length _ _ _ _ Hhost) as Hl. lia.
Qed.

Lemma decodeBrokers_size payload n offset bs offset' :
  decodeBrokers payload n offset = Some (bs, offset') →
  offset' = (offset + sum_list_with brokerSize bs)%nat.
Proof.
  revert offset bs offset'.
  induction n as [| n IH]; intros offset bs offset' Hdec;
    cbn [decodeBrokers] in Hdec.
  - injection Hdec as <- <-. cbn [sum_list_with]. lia.
  - read_as Hdec Hb. read_as Hdec Hrest. injection Hdec as <- <-.
    apply decodeBroker_size in Hb as ->. apply IH in Hrest as ->.
    cbn [sum_list_with]. lia.
Qed.

Lemma topicSize_sortPartitions t : topicSize (sortPartitions t) = topicSize t.
Proof.
  unfold topicSize, sortPartitions. cbn [TopicName PartitionMetadatas].
  by rewrite (sort_Slice_Permutation _ lessPartitionID (PartitionMetadatas t)).
Qed.

Lemma sum_topicSize_sortTopicMetadatas wire :
  sum_list_with topicSize (sortTopicMetadatas wire) = sum_list_with topicSize wire.
Proof.
  unfold sortTopicMetadatas.
  rewrite <- (sort_Slice_Permutation _ lessTopicName wire) at 2.
  induction (sort_Slice lessTopicName wire) as [| t l IH]; [done |].
  rewrite fmap_cons. cbn [sum_list_with].
  by rewrite topicSize_sortPartitions, IH.
Qed.

(** X11: A response never describes more than the buffer holds: the bytes its
    brokers, topics and partitions take on the wire, with the sixteen of
    the length, the correlation id and the two counts, are within the
    length of the buffer. *)
Theorem NewMetadataResponse_fits_buffer payload resp err :
  NewMetadataResponse payload = Some (Some resp, err) →
  (responseSize resp ≤ len payload)%nat.
Proof.
  intros Hdec.
  destruct (NewMetadataResponse_Some _ _ _ Hdec) as (rl & _ & Hcases).
  destruct Hcases as [(_ & Hnone & _) | (_ & Hrun)]; [done |].
  destruct Hrun as (cid & bc & brokers & o & tc & wire & o' &
                    _ & _ & Hbrokers & Htc & Htopics & Hresp).
  injection Hresp as ->. unfold responseSize. cbn [Brokers TopicMetadatas].
  rewrite sum_topicSize_sortTopicMetadatas.
  apply decodeBrokers_size in Hbrokers as ->.
  apply readUint32_le in Htc.
  apply decodeTopicMetadatas_size in Htopics as [-> Hle].
  destruct wire as [| t wire]; [cbn [sum_list_with]; lia |].
  specialize (Hle ltac:(done)). lia.
Qed.

(** X12: A buffer of fewer than four bytes has no length field to compare: the
    decoder panics on it, the empty buffer included. *)
Theorem NewMetadataResponse_short_panics payload :
  (len payload < 4)%nat → NewMetadataResponse payload = None.
Proof.
  intros Hlen. unfold NewMetadataResponse.
  destruct (readUint32 payload 0) as [z |] eqn:Hz; [| done].
  apply readUint32_le in Hz. lia.
Qed.

End Decoder.

(** *** The test vectors *)

#[local] Existing Instance tableRegistry.
#[local] Existing Instance mergeSorter.

Lemma NewMetadataResponse_error_of_response_witness :
  (Some (registryError 3%nat) = None ↔
   Forall (λ c, ¬ reported c)
     (errorCodes (TopicMetadatas Vectors.metadataBenignThenErrorResponse))) ∧
  (∀ e, Some (registryError 3%nat) = Some e →
     ∃ c, c ∈ errorCodes (TopicMetadatas Vectors.metadataBenignThenErrorResponse) ∧
          reported c ∧ e = registryError (getErrorFromErrorCode c)).
Proof.
  apply (NewMetadataResponse_error_of_response Vectors.metadataBenignThenError).
  vm_compute. reflexivity.
Defined.

Lemma NewMetadataResponse_response_or_length_error_witness :
  ((None : option MetadataResponse) = None ↔
   ∃ declared actual,
     Some (lengthDidNotMatch 13 12) = Some (lengthDidNotMatch declared actual)) ∧
  (∀ e, Some (lengthDidNotMatch 13 12) = Some (registryError e) →
        is_Some (None : option MetadataResponse)).
Proof.
  apply (NewMetadataResponse_response_or_length_error Vectors.metadataBadLength).
  vm_compute. reflexivity.
Defined.

Lemma NewMetadataResponse_topics_of_wire_witness :
  ∃ topicsOffset topicMetadatasCount wire offset' ordered,
    readUint32 Vectors.metadataOrders topicsOffset = Some topicMetadatasCount ∧
    decodeTopicMetadatas Vectors.metadataOrders (Z.to_nat topicMetadatasCount)
      (topicsOffset + 4) None = Some (wire, offset', None) ∧
    ordered ≡ₚ wire ∧
    Forall2 sameTopic ordered (TopicMetadatas Vectors.metadataOrdersResponse).
Proof.
  apply (NewMetadataResponse_topics_of_wire Vectors.metadataOrders).
  vm_compute. reflexivity.
Defined.

Lemma NewMetadataResponse_fits_buffer_witness :
  (responseSize Vectors.metadataOrdersResponse ≤ len Vectors.metadataOrders)%nat.
Proof.
  apply (NewMetadataResponse_fits_buffer Vectors.metadataOrders
           Vectors.metadataOrdersResponse None).
  vm_compute. reflexivity.
Defined.

Lemma NewMetadataResponse_short_panics_witness :
  NewMetadataResponse (ofBytes []) = None.
Proof.
  apply (NewMetadataResponse_short_panics (ofBytes [])).
  vm_compute. lia.
Defined.

End MetadataMore.

(** ** More on the configuration *)

Module ConfigMore.
Import Config ConfigFacts.

(** *** ConsumerConfig.checkValid *)

(** X13: [ConsumerConfig.checkValid] succeeds exactly when the servers and the
    group id are set and the offsets storage is 0 or 1; it reports the
    first of the three that fails, in this order. *)
Theorem Consumer_checkValid_first_failure (config : ConsumerConfig) :
  (Consumer.checkValid config = None ↔
   BootstrapServers config ≠ "" ∧ GroupID config ≠ "" ∧
   (OffsetsStorage config = 0 ∨ OffsetsStorage config = 1)) ∧
  (BootstrapServers config = "" →
   Consumer.checkValid config = Some bootstrapServersNotSet) ∧
  (BootstrapServers config ≠ "" → GroupID config = "" →
   Consumer.checkValid config = Some emptyGroupID) ∧
  (BootstrapServers config ≠ "" → GroupID config ≠ "" →
   OffsetsStorage config ≠ 0 → OffsetsStorage config ≠ 1 →
   Consumer.checkValid config = Some invallidOffsetsStorageConfig).
Proof.
  unfold Consumer.checkValid.
  destruct (decide (BootstrapServers config = "")) as [Hs | Hs].
  { split; [split; [done | by intros [? _]] |].
    split; [done |]. split; intros; done. }
  destruct (decide (GroupID config = "")) as [Hg | Hg].
  { split; [split; [done | by intros (_ & ? & _)] |].
    split; [done |]. split; intros; done. }
  destruct (decide (OffsetsStorage config ≠ 0 ∧ OffsetsStorage config ≠ 1))
    as [Ho | Ho].
  { split; [split; [done | intros (_ & _ & ?); lia] |].
    split; [done |]. split; intros; done. }
  split; [split; [intros _; repeat split; [done | done | lia] | done] |].
  split; [done |]. split; [done |].
  intros _ _ ? ?. destruct Ho. done.
Qed.

(** *** ProducerConfig.checkValid *)

(** X14: [ProducerConfig.checkValid] succeeds exactly when the servers are set,
    the message count and the flush interval are positive and the
    compression type is one of the four known; before it looks at the
    compression type it reports the servers, then the message count, then
    the flush interval. *)
Theorem Producer_checkValid_first_failure (config : Producer.ProducerConfig) :
  (Producer.checkValid config = None ↔
   Producer.BootstrapServers config ≠ "" ∧
   Producer.MessageMaxCount config > 0 ∧
   Producer.FlushIntervalMS config > 0 ∧
   Producer.CompressionType config ∈ ["none"; "gzip"; "snappy"; "lz4"]) ∧
  (Producer.BootstrapServers config = "" →
   Producer.checkValid config = Some bootstrapServersNotSet) ∧
  (Producer.BootstrapServers config ≠ "" →
   Producer.MessageMaxCount config ≤ 0 →
   Producer.checkValid config = Some messageMaxCountError) ∧
  (Producer.BootstrapServers config ≠ "" →
   Producer.MessageMaxCount config > 0 →
   Producer.FlushIntervalMS config ≤ 0 →
   Producer.checkValid config = Some flushIntervalMSError).
Proof.
  unfold Producer.checkValid.
  destruct (decide (Producer.BootstrapServers config = "")) as [Hs | Hs].
  { split; [split; [done | by intros [? _]] |].
    split; [done |]. split; intros; done. }
  destruct (decide (Producer.MessageMaxCount config ≤ 0)) as [Hc | Hc].
  { split; [split; [done | intros (_ & ? & _); lia] |].
    split; [done |]. split; intros; [done | lia]. }
  destruct (decide (Producer.FlushIntervalMS config ≤ 0)) as [Hf | Hf].
  { split; [split; [done | intros (_ & _ & ? & _); lia] |].
    split; [done |]. split; intros; [lia | done]. }
  split; [| split; [done |]; split; intros; lia].
  rewrite !elem_of_cons, elem_of_nil.
  assert (Hfirst : Producer.BootstrapServers config ≠ "" ∧
                   Producer.MessageMaxCount config > 0 ∧
                   Producer.FlushIntervalMS config > 0) by (repeat split; [done | lia | lia]).
  repeat destruct (decide (Producer.CompressionType config = _));
    intuition congruence.
Qed.

(** *** GetConsumerConfig and the vector *)

Section Consumer.
Context `{APIKeys}.

Lemma DefaultConsumerConfig_Some :
  keysInRange → ∃ d, DefaultConsumerConfig = Some d ∧ SessionTimeoutMS d = 30000.
Proof.
  intros (Hj & Ho & Hf).
  unfold DefaultConsumerConfig, deriveTimeoutMSForEachAPI.
  cbn [TimeoutMSForEachAPI].
  rewrite assignIndex_Some by (rewrite length_replicate; lia).
  cbn [mbind option_bind].
  rewrite assignIndex_Some by (rewrite length_insert, length_replicate; lia).
  cbn [mbind option_bind].
  rewrite assignIndex_Some by (rewrite !length_insert, length_replicate; lia).
  cbn [mbind option_bind]. eexists. split; reflexivity.
Qed.

Lemma unmarshalConsumerConfig_error config c e :
  unmarshalConsumerConfig config c = inl e → ∃ key, e = UnmarshalTypeError key.
Proof.
  assert (Hs : ∀ k v o e, intoString k v o = inl e → ∃ key, e = UnmarshalTypeError key).
  { intros k [[] |] o e'; cbn; intros [= <-] || intros [=]; eauto. }
  assert (Hb : ∀ k v o e, intoBool k v o = inl e → ∃ key, e = UnmarshalTypeError key).
  { intros k [[] |] o e'; cbn; intros [= <-] || intros [=]; eauto. }
  assert (Hi : ∀ b k v o e, intoInt b k v o = inl e → ∃ key, e = UnmarshalTypeError key).
  { intros b k [[] |] o e'; cbn; try destruct (decide _);
      intros [= <-] || intros [=]; eauto. }
  assert (Hl : ∀ k v o e, intoInts k v o = inl e → ∃ key, e = UnmarshalTypeError key).
  { intros k [[] |] o e'; cbn; try destruct (decide _);
      intros [= <-] || intros [=]; eauto. }
  unfold unmarshalConsumerConfig. intros Hun.
  repeat match type of Hun with
         | bindE ?m _ = inl _ =>
             let E := fresh "E" in
             destruct m eqn:E; cbn [bindE] in Hun;
             [injection Hun as <-; eauto |]
         end.
  discriminate Hun.
Qed.


(** X18: A configuration that [GetConsumerConfig] returns never has a nil
    vector, and the broker configuration made of it carries the same
    vector, timeout and connect timeout, next to the refresh interval of
    the broker defaults. *)
Theorem GetConsumerConfig_vector_handed_on config c :
  GetConsumerConfig config = Some (Some c, None) →
  is_Some (TimeoutMSForEachAPI c) ∧
  Broker.TimeoutMSForEachAPI (Broker.getBrokerConfigFromConsumerConfig c)
    = TimeoutMSForEachAPI c ∧
  Broker.TimeoutMS (Broker.getBrokerConfigFromConsumerConfig c) = TimeoutMS c ∧
  Broker.ConnectTimeoutMS (Broker.getBrokerConfigFromConsumerConfig c)
    = ConnectTimeoutMS c ∧
  Broker.MetadataRefreshIntervalMS (Broker.getBrokerConfigFromConsumerConfig c)
    = 300000.
Proof.
  intros Hget. split; [| by repeat split].
  unfold GetConsumerConfig in Hget.
  destruct DefaultConsumerConfig as [d |]; cbn [mbind option_bind] in Hget; [| done].
  destruct (unmarshalConsumerConfig config d) as [e | c'] eqn:Hun; [done |].
  unfold deriveTimeoutMSForEachAPI in Hget.
  destruct (TimeoutMSForEachAPI c') as [v |] eqn:Hv.
  - cbn [mbind option_bind] in Hget. injection Hget as <-. rewrite Hv. by eexists.
  - destruct (assignIndex _ _ _) as [v1 |]; cbn [mbind option_bind] in Hget; [| done].
    destruct (assignIndex _ _ _) as [v2 |]; cbn [mbind option_bind] in Hget; [| done].
    destruct (assignIndex _ _ _) as [v3 |]; cbn [mbind option_bind] in Hget; [| done].
    injection Hget as <-. by eexists.
Qed.

(** X19: A session timeout that does not fit [int32] is not cut down to fit:
    the mapping is refused with the error of the decoding, and no
    configuration is returned. *)
Theorem GetConsumerConfig_wide_session_timeout config z :
  keysInRange →
  config !! "session.timeout.ms" = Some (VInt z) →
  ¬ inInt 32 z →
  ∃ key, GetConsumerConfig config = Some (None, Some (UnmarshalTypeError key)).
Proof.
  intros Hrange Hkey Hwide. unfold GetConsumerConfig.
  destruct (DefaultConsumerConfig_Some Hrange) as (d & -> & _).
  cbn [mbind option_bind].
  destruct (unmarshalConsumerConfig config d) as [e | c'] eqn:Hun.
  - destruct (unmarshalConsumerConfig_error _ _ _ Hun) as [key ->]. by exists key.
  - destruct (unmarshalConsumerConfig_fields _ _ _ Hun) as (_ & _ & Hs & _).
    rewrite Hkey in Hs. cbn [intoInt] in Hs.
    by destruct (decide (inInt 32 z)).
Qed.

End Consumer.

(** *** The test vectors *)

#[local] Existing Instance kafkaAPIKeys.

Lemma kafkaAPIKeys_inRange : keysInRange.
Proof. unfold keysInRange. simpl. lia. Qed.





Lemma GetConsumerConfig_vector_handed_on_witness :
  is_Some (TimeoutMSForEachAPI (configWith 1000 defaultTimeouts)) ∧
  Broker.TimeoutMSForEachAPI
    (Broker.getBrokerConfigFromConsumerConfig (configWith 1000 defaultTimeouts))
    = TimeoutMSForEachAPI (configWith 1000 defaultTimeouts) ∧
  Broker.TimeoutMS
    (Broker.getBrokerConfigFromConsumerConfig (configWith 1000 defaultTimeouts))
    = TimeoutMS (configWith 1000 defaultTimeouts) ∧
  Broker.ConnectTimeoutMS
    (Broker.getBrokerConfigFromConsumerConfig (configWith 1000 defaultTimeouts))
    = ConnectTimeoutMS (configWith 1000 defaultTimeouts) ∧
  Broker.MetadataRefreshIntervalMS
    (Broker.getBrokerConfigFromConsumerConfig (configWith 1000 defaultTimeouts))
    = 300000.
Proof.
  apply (GetConsumerConfig_vector_handed_on timeoutOnly
           (configWith 1000 defaultTimeouts)).
  vm_compute. reflexivity.
Defined.

Lemma GetConsumerConfig_wide_session_timeout_witness :
  ∃ key,
    GetConsumerConfig wideSessionTimeout = Some (None, Some (UnmarshalTypeError key)).
Proof.
  apply (GetConsumerConfig_wide_session_timeout wideSessionTimeout 3000000000).
  - exact kafkaAPIKeys_inRange.
  - vm_compute. reflexivity.
  - unfold inInt. lia.
Defined.

End ConfigMore.
